(** * go-intervals: modular intervals and the span of the interval-set tests

    A shallow embedding of [modinterval/modinterval.go] (types [Modulus],
    [IntInterval], [RealIntInterval]) and of the [span] interval used by the
    interval-set tests, followed by the properties stated about them.

    Go's [int] is modelled as a 64-bit two's-complement integer: a value of
    [Z] inside [int_min .. int_max], every addition and subtraction wrapped
    back into that range.  A Go panic is an explicit error result. *)

From Stdlib Require Import ZArith List Lia Bool.
Import ListNotations.
Local Open Scope Z_scope.

(** ** Go's [int] *)

Module GoInt.

Definition int_min : Z := - 2 ^ 63.
Definition int_max : Z := 2 ^ 63 - 1.

(** Two's-complement wrap-around of a mathematical integer. *)
Definition wrap (z : Z) : Z := (z + 2 ^ 63) mod 2 ^ 64 - 2 ^ 63.

Definition in_range (z : Z) : Prop := int_min <= z <= int_max.

Definition add (a b : Z) : Z := wrap (a + b).
Definition sub (a b : Z) : Z := wrap (a - b).

(** Far enough from the bounds of [int] that a few additions and
    subtractions of such values do not overflow. *)
Definition small (z : Z) : Prop := - 2 ^ 61 <= z <= 2 ^ 61.

End GoInt.

(** ** Panics as results *)

Inductive panic : Type :=
| InvalidModulus (m : Z)      (* "invalid modulus = %d is less than 0" *)
| InvalidSize (size : Z)      (* "invalid size = %d is less than 0" *)
| DivideByZero.               (* runtime error: integer divide by zero *)

Inductive result (A : Type) : Type :=
| Ok (a : A)
| Panic (p : panic).

Arguments Ok {A} a.
Arguments Panic {A} p.

Definition bind {A B : Type} (r : result A) (k : A -> result B) : result B :=
  match r with
  | Ok a => k a
  | Panic p => Panic p
  end.

Notation "x <- r ;; k" := (bind r (fun x => k))
  (at level 61, r at next level, right associativity).

Definition panics {A : Type} (r : result A) : Prop := exists p, r = Panic p.

(** ** Integer helpers of modinterval.go *)

Definition intMin (a b : Z) : Z := if a <? b then a else b.
Definition intMax (a b : Z) : Z := if a >? b then a else b.

(** The loop of [intMinAll] and [intMaxAll] over the values, [best] as the
    accumulator. *)
Fixpoint intMinAll_loop (values : list Z) (best : Z) : Z :=
  match values with
  | [] => best
  | v :: rest => intMinAll_loop rest (if v <? best then v else best)
  end.

Fixpoint intMaxAll_loop (values : list Z) (best : Z) : Z :=
  match values with
  | [] => best
  | v :: rest => intMaxAll_loop rest (if v >? best then v else best)
  end.

(** [None] is the panic "cannot take min of no values". *)
Definition intMinAll (values : list Z) : option Z :=
  match values with
  | [] => None
  | v0 :: _ => Some (intMinAll_loop values v0)
  end.

(** [None] is the panic "cannot take max of no values". *)
Definition intMaxAll (values : list Z) : option Z :=
  match values with
  | [] => None
  | v0 :: _ => Some (intMaxAll_loop values v0)
  end.

(** ** Modulus *)

Module Modulus.

(** [a % m]: Go's remainder truncates towards zero and panics on a zero
    divisor. *)
Definition GoModulo (m a : Z) : result Z :=
  if m =? 0 then Panic DivideByZero else Ok (Z.rem a m).

Definition ArrayOffset (m position : Z) : result Z :=
  maybeNegative <- GoModulo m position ;;
  if maybeNegative <? 0 then Ok (GoInt.add maybeNegative m)
  else Ok maybeNegative.

Definition forwardDistance (m a b : Z) : Z :=
  let b := if b <? a then GoInt.add b m else b in
  GoInt.sub b a.

Definition IntervalSizeForward (m a b : Z) : result Z :=
  a' <- ArrayOffset m a ;;
  b' <- ArrayOffset m b ;;
  Ok (forwardDistance m a' b').

Definition IntervalSizeMin (m a b : Z) : result Z :=
  a <- ArrayOffset m a ;;
  b <- ArrayOffset m b ;;
  Ok (intMin (forwardDistance m a b) (forwardDistance m b a)).

(** The three rules of [ArrayOffset] as its documentation words them:
    rule 3 returns [(position % m) + m] for every negative position. *)
Definition ArrayOffset_documented (m position : Z) : Prop :=
  (0 <= position < m -> ArrayOffset m position = Ok position) /\
  (m <= position -> ArrayOffset m position = Ok (Z.rem position m)) /\
  (position < 0 -> ArrayOffset m position = Ok (Z.rem position m + m)) /\
  (exists r, ArrayOffset m position = Ok r /\ 0 <= r < m).

End Modulus.

(** ** RealIntInterval: a non-modular interval [start, start+size) *)

Module RealIntInterval.

Record t : Type := mk { start : Z; size : Z }.

Definition RealEmpty : t := mk 0 0.
Definition RealFromStartSize (start size : Z) : t := mk start size.

Definition Size (r : t) : Z := size r.
Definition IsEmpty (r : t) : bool := Size r =? 0.
Definition Start (r : t) : Z := start r.
Definition End (r : t) : Z := GoInt.add (start r) (size r).

Definition Contains (r : t) (i : Z) : bool :=
  (Start r <=? i) && (i <? End r).

Definition Intersection (r other : t) : t :=
  let start := intMax (Start r) (Start other) in
  let end_ := intMax (End r) (End other) in
  if end_ <=? start then RealEmpty
  else RealFromStartSize start (GoInt.sub end_ start).

(** The loop of [Expand]: [min] and [max] follow the values. *)
Fixpoint Expand_loop (value : list Z) (min max : Z) : Z * Z :=
  match value with
  | [] => (min, max)
  | v :: rest =>
      let min := if v <? min then v else min in
      let max := if v >? max then v else max in
      Expand_loop rest min max
  end.

Definition Expand (r : t) (value : list Z) : t :=
  match value with
  | [] => r
  | v0 :: _ =>
      let '(min, max) :=
        if negb (IsEmpty r) then (Start r, GoInt.add (End r) 1)
        else (v0, v0) in
      let '(min, max) := Expand_loop value min max in
      mk min (GoInt.add (GoInt.sub max min) 1)
  end.

Definition ContainsInterval (r other : t) : bool :=
  IsEmpty other || ((Start r <=? Start other) && (End r >=? End other)).

Definition Add (r : t) (offset : Z) : t :=
  RealFromStartSize (GoInt.add (Start r) offset) (Size r).

(** The intersection as the specification words it: the start is the
    larger of the two starts, the end the smaller of the two ends, and the
    result is empty unless that start lies strictly below that end. *)
Definition Intersection_conventional (r other : t) : t :=
  let start := Z.max (Start r) (Start other) in
  let end_ := Z.min (End r) (End other) in
  if start <? end_ then RealFromStartSize start (end_ - start)
  else RealEmpty.

End RealIntInterval.

(** ** IntInterval: a modular interval (modulus, start, size) *)

Module IntInterval.

Record t : Type := mk { modulus : Z; start : Z; size : Z }.

Definition FromStartSizeInt (m start size : Z) : result t :=
  if m <? 0 then Panic (InvalidModulus m)
  else
    size <- (if size >? m then Ok m
             else if size <? 0 then Panic (InvalidSize size)
             else Ok size) ;;
    s <- Modulus.ArrayOffset m start ;;
    Ok (mk m s size).

Definition fromNonemptyStartEnd (m start end_ : Z) : result t :=
  start <- Modulus.ArrayOffset m start ;;
  end_ <- Modulus.ArrayOffset m end_ ;;
  if start =? end_ then FromStartSizeInt m start m
  else
    let size := GoInt.sub end_ start in
    if size >? 0 then FromStartSizeInt m start size
    else FromStartSizeInt m start (GoInt.add (GoInt.sub m start) end_).

Definition Size (iv : t) : Z := size iv.
Definition Modulus (iv : t) : Z := modulus iv.
Definition Start (iv : t) : Z := start iv.

Definition End (iv : t) : result Z :=
  Modulus.ArrayOffset (modulus iv) (GoInt.add (start iv) (size iv)).

Definition IsEmpty (iv : t) : bool := size iv =? 0.
Definition IsComplete (iv : t) : bool := Size iv =? modulus iv.

(** The body of the [for] loop of [ExpandStart], folded over the position
    designators with [minStart] as the accumulator. *)
Fixpoint ExpandStart_loop (iv : t) (ps : list Z) (minStart : Z) : result Z :=
  match ps with
  | [] => Ok minStart
  | val :: rest =>
      offset <- Modulus.ArrayOffset (Modulus iv) val ;;
      e <- End iv ;;
      let offset :=
        if offset >=? e then GoInt.sub offset (Modulus iv) else offset in
      ExpandStart_loop iv rest (intMin minStart offset)
  end.

Definition ExpandStart (iv : t) (positionDesignator : list Z) : result t :=
  if IsComplete iv || (Z.of_nat (length positionDesignator) =? 0) then Ok iv
  else
    minStart <- ExpandStart_loop iv positionDesignator (start iv) ;;
    e <- End iv ;;
    FromStartSizeInt (Modulus iv) minStart (GoInt.sub e minStart).

(** The body of the [for] loop of [ExpandEnd], with [maxEnd] as the
    accumulator. *)
Fixpoint ExpandEnd_loop (iv : t) (ps : list Z) (maxEnd : Z) : result Z :=
  match ps with
  | [] => Ok maxEnd
  | val :: rest =>
      minEnd <- Modulus.ArrayOffset (Modulus iv) (GoInt.add val 1) ;;
      let minEnd :=
        if minEnd <? Start iv then GoInt.add minEnd (Modulus iv) else minEnd in
      ExpandEnd_loop iv rest (intMax maxEnd minEnd)
  end.

Definition ExpandEnd (iv : t) (positionDesignator : list Z) : result t :=
  if IsComplete iv || (Z.of_nat (length positionDesignator) =? 0) then Ok iv
  else
    origEnd <- End iv ;;
    maxEnd <- ExpandEnd_loop iv positionDesignator origEnd ;;
    FromStartSizeInt (Modulus iv) (Start iv) (GoInt.sub maxEnd (Start iv)).

Definition ExpandMinimal (iv : t) (positionDesignator : list Z) : result t :=
  a <- ExpandStart iv positionDesignator ;;
  b <- ExpandEnd iv positionDesignator ;;
  if Size a >? Size b then Ok b else Ok a.

Definition realIntervals (iv : t) : RealIntInterval.t * RealIntInterval.t :=
  if IsEmpty iv then (RealIntInterval.mk 0 0, RealIntInterval.mk 0 0)
  else
    let sameStartSize := Size iv in
    let max := GoInt.sub (modulus iv) (Start iv) in
    let sameStartSize := if sameStartSize >? max then max else sameStartSize in
    (RealIntInterval.RealFromStartSize (Start iv) sameStartSize,
     RealIntInterval.RealFromStartSize 0 (GoInt.sub (Size iv) sameStartSize)).

Definition ContainsExactInt (iv : t) (i : Z) : bool :=
  let '(a, b) := realIntervals iv in
  RealIntInterval.Contains a i || RealIntInterval.Contains b i.

Definition Contains (iv : t) (positionDesignator : Z) : result bool :=
  i <- Modulus.ArrayOffset (Modulus iv) positionDesignator ;;
  Ok (ContainsExactInt iv i).

Definition normalized (iv : t) : result t :=
  if negb (IsComplete iv) then Ok iv
  else FromStartSizeInt (Modulus iv) 0 (Size iv).

Definition EqualSets (iv other : t) : result bool :=
  let sizesEqual := Size iv =? Size other in
  if negb sizesEqual then Ok false
  else if IsEmpty iv then Ok true
  else
    a <- normalized iv ;;
    b <- normalized other ;;
    Ok (Start a =? Start b).

Definition RealIntervals (iv : t) : list RealIntInterval.t :=
  let '(a, b) := realIntervals iv in
  if RealIntInterval.IsEmpty a && RealIntInterval.IsEmpty b then []
  else if RealIntInterval.IsEmpty b then [a]
  else [a; b].

(** The offset of a designator [p] as the loop of [ExpandStart] compares
    it, in unbounded arithmetic: normalized, and moved below zero when it is
    not before the end [e]. *)
Definition startOffset (m e p : Z) : Z :=
  if p mod m >=? e then p mod m - m else p mod m.

(** The end a designator [p] asks for in the loop of [ExpandEnd], in
    unbounded arithmetic: one past the normalized designator, and moved past
    the modulus when it is before the start [s]. *)
Definition endTarget (m s p : Z) : Z :=
  if (p + 1) mod m <? s then (p + 1) mod m + m else (p + 1) mod m.

(** The start that [EqualSets] compares, in the words of its description:
    the start of a complete interval is replaced by 0, any other start is
    kept. *)
Definition normStart (iv : t) : Z := if IsComplete iv then 0 else Start iv.

(** The representation invariant every constructed interval satisfies:
    the start is normalized and the size lies between 0 and the modulus. *)
Definition wf (iv : t) : Prop :=
  0 < modulus iv <= GoInt.int_max /\
  0 <= start iv < modulus iv /\
  0 <= size iv <= modulus iv.

End IntInterval.

(** ** span: the half-open interval [min, max) of the interval-set tests *)

Module Span.

Record span : Type := mk { min : Z; max : Z }.

Definition zero : span := mk 0 0.

Definition imin (a b : Z) : Z := if a <? b then a else b.
Definition imax (a b : Z) : Z := if a >? b then a else b.

Definition Equal (s t : span) : bool := (min s =? min t) && (max s =? max t).

Definition Intersect (s t : span) : span :=
  let result := mk (imax (min s) (min t)) (imin (max s) (max t)) in
  if min result <? max result then result else zero.

Definition Before (s t : span) : bool := max s <=? min t.

Definition IsZero (s : span) : bool := (min s =? 0) && (max s =? 0).

Definition maybeZero (lo hi : Z) : span :=
  if lo =? hi then zero else mk lo hi.

Definition Bisect (s t : span) : span * span :=
  let intersection := Intersect s t in
  if IsZero intersection then
    if Before s t then (s, zero) else (zero, s)
  else
    (maybeZero (min s) (min intersection),
     maybeZero (max intersection) (max s)).

Definition Adjoin (s t : span) : span :=
  if max s =? min t then mk (min s) (max t)
  else if max t =? min s then mk (min t) (max s)
  else zero.

Definition Encompass (s t : span) : span :=
  mk (imin (min s) (min t)) (imax (max s) (max t)).

(** The points a span denotes. *)
Definition mem (x : Z) (s : span) : Prop := min s <= x < max s.

Definition valid (s : span) : Prop := min s <= max s.

End Span.

(** * Properties *)

(** ** Wrap-around arithmetic *)

Section GoIntFacts.
Import GoInt.

Lemma two63_val : 2 ^ 63 = 9223372036854775808.
Proof. reflexivity. Qed.

Lemma two64_val : 2 ^ 64 = 18446744073709551616.
Proof. reflexivity. Qed.

Lemma wrap_small (z : Z) : in_range z -> wrap z = z.
Proof.
  unfold in_range, int_min, int_max, wrap. rewrite two63_val, two64_val.
  intros H. rewrite Z.mod_small by lia. lia.
Qed.

Lemma wrap_in_range (z : Z) : in_range (wrap z).
Proof.
  unfold in_range, int_min, int_max, wrap. rewrite two63_val, two64_val.
  pose proof (Z.mod_pos_bound (z + 9223372036854775808) 18446744073709551616).
  lia.
Qed.

(** [wrap] only looks at its argument modulo 2^64. *)
Lemma wrap_mod_eq (x y : Z) :
  x mod 2 ^ 64 = y mod 2 ^ 64 -> wrap x = wrap y.
Proof.
  intros H. unfold wrap.
  rewrite <- (Zplus_mod_idemp_l x), <- (Zplus_mod_idemp_l y), H.
  reflexivity.
Qed.

Lemma wrap_mod (x : Z) : wrap x mod 2 ^ 64 = x mod 2 ^ 64.
Proof.
  unfold wrap.
  rewrite Zminus_mod_idemp_l.
  f_equal. lia.
Qed.

Lemma wrap_sub_wrap_l (x a : Z) : wrap (wrap x - a) = wrap (x - a).
Proof.
  apply wrap_mod_eq.
  rewrite <- Zminus_mod_idemp_l, wrap_mod, Zminus_mod_idemp_l. reflexivity.
Qed.

Lemma add_small (a b : Z) : in_range (a + b) -> add a b = a + b.
Proof. apply wrap_small. Qed.

Lemma sub_small (a b : Z) : in_range (a - b) -> sub a b = a - b.
Proof. apply wrap_small. Qed.

Lemma in_range_bounds (z : Z) :
  in_range z <-> -9223372036854775808 <= z <= 9223372036854775807.
Proof. unfold in_range, int_min, int_max. rewrite two63_val. lia. Qed.

End GoIntFacts.

(** Turns range side conditions into linear arithmetic. *)
Ltac range_lia :=
  repeat match goal with
         | H : GoInt.in_range _ |- _ => apply in_range_bounds in H
         | H : context [GoInt.int_max] |- _ =>
             unfold GoInt.int_max in H; rewrite two63_val in H
         | H : context [GoInt.int_min] |- _ =>
             unfold GoInt.int_min in H; rewrite two63_val in H
         end;
  try apply in_range_bounds;
  unfold GoInt.int_max, GoInt.int_min; try rewrite two63_val;
  lia.

Lemma intMin_spec (a b : Z) : intMin a b = Z.min a b.
Proof. unfold intMin. destruct (Z.ltb_spec a b); lia. Qed.

Lemma intMax_spec (a b : Z) : intMax a b = Z.max a b.
Proof. unfold intMax. rewrite Z.gtb_ltb. destruct (Z.ltb_spec b a); lia. Qed.

(** ** Modulus *)

Section ModulusFacts.
Import Modulus.

Variable m : Z.
Hypothesis m_pos : 0 < m.
Hypothesis m_int : m <= GoInt.int_max.

Lemma GoModulo_ok (a : Z) : GoModulo m a = Ok (Z.rem a m).
Proof.
  unfold GoModulo. destruct (Z.eqb_spec m 0); [lia | reflexivity].
Qed.

Lemma rem_bounds (a : Z) : - m < Z.rem a m < m.
Proof.
  pose proof (Z.rem_bound_abs a m ltac:(lia)). lia.
Qed.

(** On a positive modulus [ArrayOffset] is the mathematical (floored)
    residue. *)
Lemma ArrayOffset_mod (p : Z) : ArrayOffset m p = Ok (p mod m).
Proof.
  unfold ArrayOffset. rewrite GoModulo_ok. cbn [bind].
  pose proof (rem_bounds p) as Hb.
  pose proof (Z.rem_mod_eq_0 p m ltac:(lia)) as H0.
  destruct (Z.ltb_spec (Z.rem p m) 0) as [Hn | Hn].
  - rewrite add_small by range_lia. f_equal.
    apply (Zmod_unique_full p m (Z.quot p m - 1)).
    + left. lia.
    + pose proof (Z.quot_rem' p m). nia.
  - f_equal. apply (Zmod_unique_full p m (Z.quot p m)).
    + left. lia.
    + pose proof (Z.quot_rem' p m). nia.
Qed.

Lemma ArrayOffset_range (p r : Z) : ArrayOffset m p = Ok r -> 0 <= r < m.
Proof.
  rewrite ArrayOffset_mod. intros [= <-]. apply Z.mod_pos_bound, m_pos.
Qed.

Lemma forwardDistance_spec (a b : Z) :
  0 <= a < m -> 0 <= b < m ->
  forwardDistance m a b = if b <? a then b - a + m else b - a.
Proof.
  intros Ha Hb. unfold forwardDistance.
  destruct (Z.ltb_spec b a).
  - unfold GoInt.add, GoInt.sub. rewrite wrap_sub_wrap_l.
    rewrite wrap_small by range_lia. lia.
  - apply sub_small. range_lia.
Qed.

End ModulusFacts.

(** C6 (as worded): rule 3, "for a negative position the result is
    [(position % m) + m]", fails at a negative multiple of the modulus:
    [ArrayOffset 10 (-10)] is 0, not [(-10 % 10) + 10 = 10]. *)
Lemma ArrayOffset_documented_fails_at_neg_multiple :
  Modulus.ArrayOffset 10 (-10) = Ok 0 /\
  ~ Modulus.ArrayOffset_documented 10 (-10).
Proof.
  split; [reflexivity |].
  intros (_ & _ & H & _). specialize (H ltac:(lia)). discriminate H.
Qed.

(** C6 (amended): for a modulus [0 < m] and every position, [ArrayOffset]
    returns the position itself when [0 <= position < m], [position % m]
    when [position >= m], and for a negative position [(position % m) + m]
    unless [position % m] is 0, in which case it returns 0.  The result
    always lies in [0, m), and [ArrayOffset 10 (-11) = 9]. *)
Theorem ArrayOffset_cases (m position : Z) :
  0 < m <= GoInt.int_max ->
  (0 <= position < m -> Modulus.ArrayOffset m position = Ok position) /\
  (m <= position -> Modulus.ArrayOffset m position = Ok (Z.rem position m)) /\
  (position < 0 ->
   Modulus.ArrayOffset m position =
   Ok (if Z.rem position m =? 0 then 0 else Z.rem position m + m)) /\
  (exists r, Modulus.ArrayOffset m position = Ok r /\ 0 <= r < m) /\
  Modulus.ArrayOffset 10 (-11) = Ok 9.
Proof.
  intros [Hpos Hint].
  pose proof (rem_bounds m Hpos position) as Hb.
  assert (Hdef : Modulus.ArrayOffset m position =
                 if Z.rem position m <? 0
                 then Ok (Z.rem position m + m) else Ok (Z.rem position m)).
  { unfold Modulus.ArrayOffset. rewrite GoModulo_ok by assumption. cbn [bind].
    destruct (Z.ltb_spec (Z.rem position m) 0); [| reflexivity].
    rewrite add_small by range_lia. reflexivity. }
  repeat split.
  - intros Hp. rewrite Hdef, Z.rem_small by lia.
    destruct (Z.ltb_spec position 0); [lia | reflexivity].
  - intros Hp. rewrite Hdef.
    pose proof (Z.rem_nonneg position m ltac:(lia) ltac:(lia)).
    destruct (Z.ltb_spec (Z.rem position m) 0); [lia | reflexivity].
  - intros Hp. rewrite Hdef.
    pose proof (Z.rem_sign_mul position m ltac:(lia)).
    destruct (Z.ltb_spec (Z.rem position m) 0);
      destruct (Z.eqb_spec (Z.rem position m) 0); try lia; try reflexivity.
    + f_equal. nia.
  - exists (position mod m). split.
    + apply ArrayOffset_mod; assumption.
    + apply Z.mod_pos_bound, Hpos.
Qed.

Lemma ArrayOffset_cases_witness :
  0 < 10 <= GoInt.int_max /\
  (exists r, Modulus.ArrayOffset 10 (-10) = Ok r /\ 0 <= r < 10).
Proof.
  assert (H : 0 < 10 <= GoInt.int_max) by (vm_compute; split; congruence).
  split; [exact H |].
  exact (proj1 (proj2 (proj2 (proj2 (ArrayOffset_cases 10 (-10) H))))).
Defined.

(** C7: with both arguments normalized by [ArrayOffset],
    [IntervalSizeForward] is 0 when they are equal, [b - a] when [a < b] and
    [b - a + m] otherwise; [IntervalSizeMin] is the smaller of the two
    forward sizes; with modulus 10 the forward size from 9 to 7 is 8 and the
    minimum size is 2. *)
Theorem IntervalSize_spec (m a b : Z) :
  0 < m <= GoInt.int_max ->
  (exists a' b',
      Modulus.ArrayOffset m a = Ok a' /\
      Modulus.ArrayOffset m b = Ok b' /\
      Modulus.IntervalSizeForward m a b =
      Ok (if a' =? b' then 0 else if a' <? b' then b' - a' else b' - a' + m)) /\
  (exists f g,
      Modulus.IntervalSizeForward m a b = Ok f /\
      Modulus.IntervalSizeForward m b a = Ok g /\
      Modulus.IntervalSizeMin m a b = Ok (Z.min f g)) /\
  Modulus.IntervalSizeForward 10 9 7 = Ok 8 /\
  Modulus.IntervalSizeMin 10 9 7 = Ok 2.
Proof.
  intros [Hpos Hint].
  pose proof (Z.mod_pos_bound a m Hpos) as Ha.
  pose proof (Z.mod_pos_bound b m Hpos) as Hb.
  unfold Modulus.IntervalSizeForward, Modulus.IntervalSizeMin.
  rewrite !(ArrayOffset_mod m Hpos Hint). cbn [bind].
  rewrite !(forwardDistance_spec m Hint) by assumption.
  repeat split.
  - exists (a mod m), (b mod m). repeat split. f_equal.
    destruct (Z.eqb_spec (a mod m) (b mod m)) as [-> | Hne].
    + rewrite Z.ltb_irrefl. lia.
    + destruct (Z.ltb_spec (b mod m) (a mod m));
        destruct (Z.ltb_spec (a mod m) (b mod m)); lia.
  - eexists. eexists. repeat split. f_equal. apply intMin_spec.
Qed.

Lemma IntervalSize_spec_witness :
  0 < 10 <= GoInt.int_max /\
  exists f g,
    Modulus.IntervalSizeForward 10 14 3 = Ok f /\
    Modulus.IntervalSizeForward 10 3 14 = Ok g /\
    Modulus.IntervalSizeMin 10 14 3 = Ok (Z.min f g).
Proof.
  assert (H : 0 < 10 <= GoInt.int_max) by (vm_compute; split; congruence).
  split; [exact H |].
  exact (proj1 (proj2 (IntervalSize_spec 10 14 3 H))).
Defined.

(** ** IntInterval: construction *)

Section Construction.
Import IntInterval.

Lemma FromStartSizeInt_ok (m start size : Z) :
  0 < m <= GoInt.int_max -> 0 <= size ->
  FromStartSizeInt m start size = Ok (mk m (start mod m) (Z.min size m)).
Proof.
  intros [Hpos Hint] Hsize. unfold FromStartSizeInt.
  destruct (Z.ltb_spec m 0); [lia |].
  rewrite Z.gtb_ltb.
  destruct (Z.ltb_spec m size); cbn [bind].
  - rewrite ArrayOffset_mod by assumption. cbn [bind].
    do 2 f_equal. lia.
  - destruct (Z.ltb_spec size 0); [lia |]. cbn [bind].
    rewrite ArrayOffset_mod by assumption. cbn [bind].
    do 2 f_equal. lia.
Qed.

(** What the guards and the division really reject: a size below zero and
    every modulus that is not strictly positive. *)
Lemma FromStartSizeInt_panics_iff (m start size : Z) :
  panics (FromStartSizeInt m start size) <-> m <= 0 \/ size < 0.
Proof.
  unfold panics, FromStartSizeInt, Modulus.ArrayOffset, Modulus.GoModulo.
  rewrite Z.gtb_ltb.
  destruct (Z.ltb_spec m 0) as [Hm | Hm].
  { split; [lia | eauto]. }
  destruct (Z.ltb_spec m size) as [Hc | Hc]; cbn [bind].
  - destruct (Z.eqb_spec m 0) as [-> | Hz]; cbn [bind].
    + split; [lia | eauto].
    + split; [| lia]. intros [p Hp].
      destruct (Z.rem start m <? 0); discriminate Hp.
  - destruct (Z.ltb_spec size 0) as [Hs | Hs]; cbn [bind].
    + split; [lia | eauto].
    + destruct (Z.eqb_spec m 0) as [-> | Hz]; cbn [bind].
      * split; [lia | eauto].
      * split; [| lia]. intros [p Hp].
        destruct (Z.rem start m <? 0); discriminate Hp.
Qed.

Lemma FromStartSizeInt_wf (m start size : Z) (iv : t) :
  0 < m <= GoInt.int_max ->
  FromStartSizeInt m start size = Ok iv -> wf iv.
Proof.
  intros Hm H.
  destruct (Z.ltb_spec size 0) as [Hs | Hs].
  - assert (Hp : panics (FromStartSizeInt m start size))
      by (apply FromStartSizeInt_panics_iff; lia).
    destruct Hp as [p Hp]. congruence.
  - rewrite FromStartSizeInt_ok in H by assumption. injection H as <-.
    pose proof (Z.mod_pos_bound start m ltac:(lia)).
    unfold wf.
    cbn [IntInterval.modulus IntInterval.start IntInterval.size]. lia.
Qed.

(** Every well-formed interval is the one its own fields construct. *)
Lemma wf_constructed (iv : t) :
  wf iv -> FromStartSizeInt (modulus iv) (start iv) (size iv) = Ok iv.
Proof.
  intros (Hm & Hs & Hz). rewrite FromStartSizeInt_ok by lia.
  rewrite Z.mod_small, Z.min_l by lia. destruct iv; reflexivity.
Qed.

End Construction.

(** C1 (evaluation at the failing input): a zero modulus passes the guard
    [m < 0] and a size of zero passes the guard [size < 0], yet the
    construction panics, in [ArrayOffset], on the division by the modulus. *)
Theorem FromStartSizeInt_zero_modulus_panics :
  IntInterval.FromStartSizeInt 0 0 0 = Panic DivideByZero /\
  IntInterval.FromStartSizeInt 0 7 3 = Panic DivideByZero /\
  ~ (0 < 0 \/ 0 < 0).
Proof. split; [reflexivity | split; [reflexivity | lia]]. Qed.

(** ** IntInterval: decomposition into real intervals *)

Section Decomposition.
Import IntInterval.

Lemma Real_Contains_iff (s z i : Z) :
  GoInt.in_range (s + z) ->
  RealIntInterval.Contains (RealIntInterval.mk s z) i = true <-> s <= i < s + z.
Proof.
  intros Hr. unfold RealIntInterval.Contains, RealIntInterval.End,
    RealIntInterval.Start. cbn [RealIntInterval.start RealIntInterval.size].
  rewrite add_small by assumption.
  rewrite andb_true_iff, Z.leb_le, Z.ltb_lt. reflexivity.
Qed.

Lemma realIntervals_empty (iv : t) :
  size iv = 0 ->
  realIntervals iv = (RealIntInterval.mk 0 0, RealIntInterval.mk 0 0).
Proof.
  intros H. unfold realIntervals, IsEmpty. rewrite H. reflexivity.
Qed.

Lemma realIntervals_nonempty (iv : t) :
  wf iv -> size iv <> 0 ->
  realIntervals iv =
  (RealIntInterval.mk (start iv) (Z.min (size iv) (modulus iv - start iv)),
   RealIntInterval.mk 0 (size iv - Z.min (size iv) (modulus iv - start iv))).
Proof.
  intros (Hm & Hs & Hz) Hne. unfold realIntervals, IsEmpty, Size, Start.
  destruct (Z.eqb_spec (size iv) 0); [contradiction |].
  unfold RealIntInterval.RealFromStartSize.
  rewrite (sub_small (modulus iv)) by range_lia.
  rewrite Z.gtb_ltb.
  destruct (Z.ltb_spec (modulus iv - start iv) (size iv)).
  - rewrite Z.min_r by lia. rewrite sub_small by range_lia. reflexivity.
  - rewrite Z.min_l by lia. rewrite sub_small by range_lia. reflexivity.
Qed.

(** Exact membership, without the detour through the two parts. *)
Lemma ContainsExactInt_iff (iv : t) (i : Z) :
  wf iv ->
  ContainsExactInt iv i = true <->
  (start iv <= i < start iv + size iv /\ i < modulus iv) \/
  (0 <= i < start iv + size iv - modulus iv).
Proof.
  intros Hwf. pose proof Hwf as (Hm & Hs & Hz). unfold ContainsExactInt.
  destruct (Z.eq_dec (size iv) 0) as [H0 | H0].
  - rewrite realIntervals_empty by assumption.
    rewrite orb_true_iff, !Real_Contains_iff by range_lia. lia.
  - rewrite realIntervals_nonempty by assumption.
    rewrite orb_true_iff, !Real_Contains_iff by range_lia. lia.
Qed.

(** The shape of the two parts: [a = [sA, sA+sa)] below the modulus and
    [b = [0, sb)] below [a]. *)
Lemma realIntervals_shape (iv : t) :
  wf iv ->
  exists sA sa sb,
    realIntervals iv = (RealIntInterval.mk sA sa, RealIntInterval.mk 0 sb) /\
    0 <= sA /\ 0 <= sa /\ 0 <= sb /\ sa + sb = size iv /\
    (sa <> 0 -> sA = start iv) /\ sA + sa <= modulus iv /\ sb <= sA.
Proof.
  intros Hwf. pose proof Hwf as (Hm & Hs & Hz).
  destruct (Z.eq_dec (size iv) 0) as [H0 | H0].
  - exists 0, 0, 0. rewrite realIntervals_empty by assumption.
    repeat split; lia.
  - eexists _, _, _. rewrite realIntervals_nonempty by assumption.
    split; [reflexivity |]. repeat split; lia.
Qed.

End Decomposition.

(** C3: [RealIntervals] returns no part for an empty interval, the single
    part [start, start+size) when the interval does not reach past the
    modulus, and the two parts [start, m) and [0, size - (m - start)), in
    that order, when it does.  Modulus 10, start 9, size 4 decomposes into
    [9,10) and [0,3) and contains 2 and 9 but not 3. *)
Theorem RealIntervals_spec (iv : IntInterval.t) :
  IntInterval.wf iv ->
  let m := IntInterval.modulus iv in
  let start := IntInterval.start iv in
  let size := IntInterval.size iv in
  (size = 0 -> IntInterval.RealIntervals iv = []) /\
  (0 < size -> start + size <= m ->
   IntInterval.RealIntervals iv =
   [RealIntInterval.RealFromStartSize start size]) /\
  (m < start + size ->
   IntInterval.RealIntervals iv =
   [RealIntInterval.RealFromStartSize start (m - start);
    RealIntInterval.RealFromStartSize 0 (size - (m - start))]) /\
  (exists iv0,
      IntInterval.FromStartSizeInt 10 9 4 = Ok iv0 /\
      IntInterval.RealIntervals iv0 =
      [RealIntInterval.RealFromStartSize 9 (10 - 9);
       RealIntInterval.RealFromStartSize 0 (3 - 0)] /\
      IntInterval.Contains iv0 2 = Ok true /\
      IntInterval.Contains iv0 9 = Ok true /\
      IntInterval.Contains iv0 3 = Ok false).
Proof.
  intros Hwf m start size. pose proof Hwf as (Hm & Hs & Hz).
  fold m in Hm, Hs, Hz. fold start in Hs. fold size in Hz.
  unfold IntInterval.RealIntervals, RealIntInterval.RealFromStartSize.
  repeat split.
  - intros H0. rewrite realIntervals_empty by assumption. reflexivity.
  - intros Hpos Hfit.
    rewrite realIntervals_nonempty by (assumption || (fold size; lia)).
    fold m start size. rewrite Z.min_l by lia.
    unfold RealIntInterval.IsEmpty, RealIntInterval.Size.
    cbn [RealIntInterval.size].
    destruct (Z.eqb_spec size 0); [lia |].
    rewrite Z.sub_diag. reflexivity.
  - intros Hcross.
    rewrite realIntervals_nonempty by (assumption || (fold start size; lia)).
    fold m start size. rewrite Z.min_r by lia.
    unfold RealIntInterval.IsEmpty, RealIntInterval.Size.
    cbn [RealIntInterval.size].
    destruct (Z.eqb_spec (m - start) 0); [lia |].
    destruct (Z.eqb_spec (size - (m - start)) 0); [lia |]. reflexivity.
  - exists (IntInterval.mk 10 9 4). repeat split.
Qed.

Lemma RealIntervals_spec_witness :
  IntInterval.wf (IntInterval.mk 6 5 4) /\
  IntInterval.RealIntervals (IntInterval.mk 6 5 4) =
  [RealIntInterval.RealFromStartSize 5 (6 - 5);
   RealIntInterval.RealFromStartSize 0 (4 - (6 - 5))].
Proof.
  assert (H : IntInterval.wf (IntInterval.mk 6 5 4)).
  { unfold IntInterval.wf, GoInt.int_max; cbn; lia. }
  split; [exact H |].
  apply (proj1 (proj2 (proj2 (RealIntervals_spec _ H)))). cbn. lia.
Defined.

(** C9: the two parts of the decomposition are disjoint subsets of [0, m);
    a non-empty first part starts at the interval's start, a non-empty
    second part starts at 0; the sizes of the parts add up to the
    interval's size; no integer outside [0, m) is contained exactly, not
    even in a complete interval. *)
Theorem realIntervals_partition (iv : IntInterval.t) :
  IntInterval.wf iv ->
  let a := fst (IntInterval.realIntervals iv) in
  let b := snd (IntInterval.realIntervals iv) in
  (forall x, ~ (RealIntInterval.Contains a x = true /\
                RealIntInterval.Contains b x = true)) /\
  (forall x, RealIntInterval.Contains a x = true ->
             0 <= x < IntInterval.modulus iv) /\
  (forall x, RealIntInterval.Contains b x = true ->
             0 <= x < IntInterval.modulus iv) /\
  (RealIntInterval.IsEmpty a = false ->
   RealIntInterval.Start a = IntInterval.Start iv) /\
  (RealIntInterval.IsEmpty b = false -> RealIntInterval.Start b = 0) /\
  RealIntInterval.Size a + RealIntInterval.Size b = IntInterval.Size iv /\
  (forall i, i < 0 \/ IntInterval.modulus iv <= i ->
             IntInterval.ContainsExactInt iv i = false).
Proof.
  intros Hwf a b. pose proof Hwf as (Hm & Hs & Hz).
  destruct (realIntervals_shape iv Hwf)
    as (sA & sa & sb & E & HsA & Hsa & Hsb & Hsum & Hst & Hfit & Hdis).
  assert (Ha : forall x, RealIntInterval.Contains a x = true <->
                         sA <= x < sA + sa).
  { intros x. subst a. rewrite E. apply Real_Contains_iff. range_lia. }
  assert (Hb : forall x, RealIntInterval.Contains b x = true <->
                         0 <= x < 0 + sb).
  { intros x. subst b. rewrite E. apply Real_Contains_iff. range_lia. }
  split; [| split; [| split; [| split; [| split; [| split]]]]].
  - intros x [H1 H2]. apply Ha in H1. apply Hb in H2. lia.
  - intros x H1. apply Ha in H1. lia.
  - intros x H2. apply Hb in H2. lia.
  - subst a. rewrite E.
    unfold RealIntInterval.IsEmpty, RealIntInterval.Size, RealIntInterval.Start.
    cbn [fst RealIntInterval.size RealIntInterval.start].
    intros Hne. apply Z.eqb_neq in Hne. exact (Hst Hne).
  - subst b. rewrite E. reflexivity.
  - subst a b. rewrite E. cbn. exact Hsum.
  - intros i Hi.
    destruct (IntInterval.ContainsExactInt iv i) eqn:Ei; [| reflexivity].
    apply ContainsExactInt_iff in Ei; [lia | assumption].
Qed.

Lemma realIntervals_partition_witness :
  IntInterval.wf (IntInterval.mk 3 0 3) /\
  IntInterval.ContainsExactInt (IntInterval.mk 3 0 3) 3 = false.
Proof.
  assert (H : IntInterval.wf (IntInterval.mk 3 0 3)).
  { unfold IntInterval.wf, GoInt.int_max; cbn; lia. }
  split; [exact H |].
  apply (realIntervals_partition _ H). cbn. lia.
Defined.

(** ** RealIntInterval.Intersection *)

(** C4 (evaluation at the failing input): [Intersection] takes the larger of
    the two ends.  On [0,2) and [1,5) it returns [1,5) where the
    conventional intersection is [1,2); on the disjoint [0,1) and [5,6) it
    returns [5,6) where the conventional intersection is empty. *)
Theorem Intersection_takes_larger_end :
  let r := RealIntInterval.RealFromStartSize 0 2 in
  let s := RealIntInterval.RealFromStartSize 1 4 in
  let u := RealIntInterval.RealFromStartSize 0 1 in
  let v := RealIntInterval.RealFromStartSize 5 1 in
  RealIntInterval.Intersection r s = RealIntInterval.RealFromStartSize 1 4 /\
  RealIntInterval.Intersection_conventional r s =
  RealIntInterval.RealFromStartSize 1 1 /\
  RealIntInterval.Intersection u v = RealIntInterval.RealFromStartSize 5 1 /\
  RealIntInterval.Intersection_conventional u v = RealIntInterval.RealEmpty.
Proof. repeat split. Qed.

(** ** IntInterval.EqualSets *)

(** C5 (as worded): two empty intervals with different starts are equal as
    sets, although their sizes match and their starts, neither replaced
    since neither interval is complete, do not. *)
Lemma EqualSets_empty_ignores_start :
  let a := IntInterval.mk 10 3 0 in
  let b := IntInterval.mk 10 5 0 in
  IntInterval.wf a /\ IntInterval.wf b /\
  IntInterval.EqualSets a b = Ok true /\
  ~ (IntInterval.EqualSets a b = Ok true <->
     IntInterval.Size a = IntInterval.Size b /\
     IntInterval.normStart a = IntInterval.normStart b).
Proof.
  cbv zeta. split; [| split; [| split]].
  - unfold IntInterval.wf, GoInt.int_max; cbn; lia.
  - unfold IntInterval.wf, GoInt.int_max; cbn; lia.
  - reflexivity.
  - intros [H _]. specialize (H eq_refl). destruct H as [_ H].
    discriminate H.
Qed.

(** C5 (amended): [EqualSets] returns true if and only if the sizes are
    equal and either both intervals are empty or the starts, that of a
    complete interval replaced by 0, are equal; the moduli enter only
    through the test for completeness. *)
Theorem EqualSets_spec (a b : IntInterval.t) :
  0 <= IntInterval.modulus a -> 0 <= IntInterval.modulus b ->
  IntInterval.EqualSets a b =
  Ok ((IntInterval.Size a =? IntInterval.Size b) &&
      ((IntInterval.Size a =? 0) ||
       (IntInterval.normStart a =? IntInterval.normStart b))) /\
  (IntInterval.EqualSets a b = Ok true <->
   IntInterval.Size a = IntInterval.Size b /\
   (IntInterval.Size a = 0 \/
    IntInterval.normStart a = IntInterval.normStart b)).
Proof.
  intros Hma Hmb.
  assert (Hnorm : forall iv, 0 <= IntInterval.modulus iv ->
            IntInterval.size iv <> 0 ->
            exists iv', IntInterval.normalized iv = Ok iv' /\
                        IntInterval.Start iv' = IntInterval.normStart iv).
  { intros iv Hm Hne. unfold IntInterval.normalized, IntInterval.normStart.
    unfold IntInterval.IsComplete, IntInterval.Size, IntInterval.Modulus.
    destruct (Z.eqb_spec (IntInterval.size iv) (IntInterval.modulus iv))
      as [Hc | Hc]; cbn [negb].
    - unfold IntInterval.FromStartSizeInt, Modulus.ArrayOffset,
        Modulus.GoModulo.
      destruct (Z.ltb_spec (IntInterval.modulus iv) 0); [lia |].
      rewrite Z.gtb_ltb.
      destruct (Z.ltb_spec (IntInterval.modulus iv) (IntInterval.size iv));
        [lia |].
      destruct (Z.ltb_spec (IntInterval.size iv) 0); [lia |]. cbn [bind].
      destruct (Z.eqb_spec (IntInterval.modulus iv) 0); [lia |].
      rewrite Z.rem_0_l by lia. cbn. eauto.
    - eauto. }
  assert (E : IntInterval.EqualSets a b =
    Ok ((IntInterval.Size a =? IntInterval.Size b) &&
        ((IntInterval.Size a =? 0) ||
         (IntInterval.normStart a =? IntInterval.normStart b)))).
  { unfold IntInterval.EqualSets, IntInterval.IsEmpty.
    unfold IntInterval.Size at 1 2 3 4 5.
    destruct (Z.eqb_spec (IntInterval.size a) (IntInterval.size b))
      as [Heq | Hneq]; cbn [negb andb]; [| reflexivity].
    destruct (Z.eqb_spec (IntInterval.size a) 0) as [H0 | H0];
      cbn [orb]; [reflexivity |].
    destruct (Hnorm a Hma H0) as (a' & -> & <-).
    destruct (Hnorm b Hmb ltac:(congruence)) as (b' & -> & <-).
    reflexivity. }
  split; [exact E |].
  rewrite E. split.
  - intros [= H]. apply andb_true_iff in H. destruct H as [H1 H2].
    apply orb_true_iff in H2. rewrite !Z.eqb_eq in *. tauto.
  - intros [H1 H2]. f_equal. apply andb_true_iff. split.
    + apply Z.eqb_eq, H1.
    + apply orb_true_iff. rewrite !Z.eqb_eq. exact H2.
Qed.

Lemma EqualSets_spec_witness :
  0 <= IntInterval.modulus (IntInterval.mk 7 4 7) /\
  0 <= IntInterval.modulus (IntInterval.mk 7 0 7) /\
  IntInterval.EqualSets (IntInterval.mk 7 4 7) (IntInterval.mk 7 0 7) = Ok true.
Proof.
  assert (Ha : 0 <= IntInterval.modulus (IntInterval.mk 7 4 7)) by (cbn; lia).
  assert (Hb : 0 <= IntInterval.modulus (IntInterval.mk 7 0 7)) by (cbn; lia).
  split; [exact Ha | split; [exact Hb |]].
  apply (proj2 (EqualSets_spec _ _ Ha Hb)). cbn. lia.
Defined.

(** ** span.Bisect *)

Section SpanFacts.
Import Span.

Lemma Intersect_mem (s t : span) (x : Z) :
  mem x (Intersect s t) <-> mem x s /\ mem x t.
Proof.
  unfold Intersect, mem, imax, imin, zero. destruct s as [a b], t as [c d].
  cbn [min max]. rewrite !Z.gtb_ltb.
  destruct (Z.ltb_spec c a), (Z.ltb_spec b d); cbn [min max];
    match goal with
    | |- context [?u <? ?v] => destruct (Z.ltb_spec u v); cbn [min max]; lia
    end.
Qed.

Lemma Intersect_IsZero (s t : span) :
  IsZero (Intersect s t) = true <-> forall y, ~ (mem y s /\ mem y t).
Proof.
  split.
  - intros H y Hy. apply Intersect_mem in Hy. unfold IsZero in H.
    apply andb_true_iff in H. rewrite !Z.eqb_eq in H. unfold mem in Hy. lia.
  - intros H. unfold Intersect. cbv zeta. cbn [min max].
    match goal with
    | |- context [?u <? ?v] => destruct (Z.ltb_spec u v) as [Hlt | Hge]
    end; [| reflexivity].
    exfalso.
    apply (H (imax (min s) (min t))). apply Intersect_mem.
    unfold Intersect. cbv zeta. cbn [min max].
    apply Z.ltb_lt in Hlt. rewrite Hlt. unfold mem. cbn [min max].
    apply Z.ltb_lt in Hlt. lia.
Qed.

Lemma maybeZero_mem (lo hi x : Z) :
  mem x (maybeZero lo hi) <-> lo <= x < hi.
Proof.
  unfold maybeZero, mem, zero.
  destruct (Z.eqb_spec lo hi); cbn [min max]; lia.
Qed.

End SpanFacts.

(** The two outcomes of [Intersect]: the zero span when the spans share no
    point, and otherwise the span from the larger [min] to the smaller
    [max]. *)
Lemma Intersect_cases (s t : Span.span) :
  (Span.Intersect s t = Span.zero /\
   Z.min (Span.max s) (Span.max t) <= Z.max (Span.min s) (Span.min t)) \/
  (Span.Intersect s t =
   Span.mk (Z.max (Span.min s) (Span.min t))
     (Z.min (Span.max s) (Span.max t)) /\
   Z.max (Span.min s) (Span.min t) < Z.min (Span.max s) (Span.max t)).
Proof.
  unfold Span.Intersect. cbv zeta. cbn [Span.min Span.max].
  assert (Emax : Span.imax (Span.min s) (Span.min t) =
                 Z.max (Span.min s) (Span.min t)).
  { unfold Span.imax. rewrite Z.gtb_ltb.
    destruct (Z.ltb_spec (Span.min t) (Span.min s)); lia. }
  assert (Emin : Span.imin (Span.max s) (Span.max t) =
                 Z.min (Span.max s) (Span.max t)).
  { unfold Span.imin. destruct (Z.ltb_spec (Span.max s) (Span.max t)); lia. }
  rewrite Emax, Emin.
  destruct (Z.ltb_spec (Z.max (Span.min s) (Span.min t))
              (Z.min (Span.max s) (Span.max t)));
    [right | left]; split; (reflexivity || assumption).
Qed.

(** C8: for valid spans [s] and [t], the two parts returned by [Bisect]
    together hold exactly the points of [s] outside [t] and share no point;
    when [s] and [t] overlap, the lower part holds exactly the points of
    [s] below the overlap and the upper part exactly those at or above its
    end; when they do not overlap, the lower part is [s] and the upper part
    is empty if [s] ends at or before the start of [t], and the lower part
    is empty and the upper part is [s] otherwise; whenever [t] is not
    empty, the lower part holds exactly the points of [s] below every point
    of [t] and the upper part exactly the points of [s] above every point
    of [t]. *)
Theorem Bisect_spec (s t : Span.span) :
  Span.valid s -> Span.valid t ->
  let lower := fst (Span.Bisect s t) in
  let upper := snd (Span.Bisect s t) in
  let overlap := Span.Intersect s t in
  (forall x, Span.mem x lower \/ Span.mem x upper <->
             Span.mem x s /\ ~ Span.mem x t) /\
  (forall x, ~ (Span.mem x lower /\ Span.mem x upper)) /\
  ((exists y, Span.mem y s /\ Span.mem y t) ->
   (forall x, Span.mem x lower <-> Span.mem x s /\ x < Span.min overlap) /\
   (forall x, Span.mem x upper <-> Span.mem x s /\ Span.max overlap <= x)) /\
  ((forall y, ~ (Span.mem y s /\ Span.mem y t)) ->
   (Span.max s <= Span.min t -> lower = s /\ upper = Span.zero) /\
   (Span.min t < Span.max s -> lower = Span.zero /\ upper = s)) /\
  (Span.min t < Span.max t ->
   (forall x, Span.mem x lower <->
              Span.mem x s /\ forall y, Span.mem y t -> x < y) /\
   (forall x, Span.mem x upper <->
              Span.mem x s /\ forall y, Span.mem y t -> y < x)).
Proof.
  intros Hs Ht lower upper overlap. unfold Span.valid in Hs, Ht.
  subst lower upper overlap. unfold Span.Bisect.
  assert (Hzero : forall x, Span.mem x Span.zero <-> False)
    by (intros x; unfold Span.mem, Span.zero; cbn; lia).
  destruct (Intersect_cases s t) as [[E Hle] | [E Hlt]]; rewrite E.
  - (* no common point *)
    assert (Hno : forall y, ~ (Span.mem y s /\ Span.mem y t))
      by (intros y; unfold Span.mem; lia).
    change (Span.IsZero Span.zero) with true. cbv iota.
    unfold Span.Before.
    destruct (Z.leb_spec (Span.max s) (Span.min t)) as [Hb | Hb];
      cbn [fst snd]; (split; [| split; [| split; [| split]]]).
    + intros x. rewrite Hzero. unfold Span.mem. lia.
    + intros x. rewrite Hzero. tauto.
    + intros [y Hy]. exfalso. exact (Hno y Hy).
    + intros _. split; [intros _; split; reflexivity | lia].
    + intros Hne. split; intros x; [| rewrite Hzero]; split.
      * intros Hx. split; [exact Hx |]. intros y Hy.
        unfold Span.mem in *. lia.
      * intros [Hx _]. exact Hx.
      * intros [].
      * intros [Hx Hall].
        specialize (Hall (Span.min t) ltac:(unfold Span.mem; lia)).
        unfold Span.mem in Hx. lia.
    + intros x. rewrite Hzero. unfold Span.mem. lia.
    + intros x. rewrite Hzero. tauto.
    + intros [y Hy]. exfalso. exact (Hno y Hy).
    + intros _. split; [lia | intros _; split; reflexivity].
    + intros Hne. split; intros x; [rewrite Hzero |]; split.
      * intros [].
      * intros [Hx Hall].
        specialize (Hall (Span.min t) ltac:(unfold Span.mem; lia)).
        unfold Span.mem in Hx. lia.
      * intros Hx. split; [exact Hx |]. intros y Hy.
        unfold Span.mem in *. lia.
      * intros [Hx _]. exact Hx.
  - (* the overlap runs from the larger min to the smaller max *)
    assert (Ez : Span.IsZero
                   (Span.mk (Z.max (Span.min s) (Span.min t))
                      (Z.min (Span.max s) (Span.max t))) = false).
    { unfold Span.IsZero. cbn [Span.min Span.max].
      destruct (Z.eqb_spec (Z.max (Span.min s) (Span.min t)) 0);
        destruct (Z.eqb_spec (Z.min (Span.max s) (Span.max t)) 0);
        try reflexivity; lia. }
    rewrite Ez. cbn [fst snd Span.min Span.max].
    split; [| split; [| split; [| split]]].
    + intros x. rewrite !maybeZero_mem. unfold Span.mem. lia.
    + intros x. rewrite !maybeZero_mem. lia.
    + intros _. split; intros x; rewrite maybeZero_mem; unfold Span.mem; lia.
    + intros Hno. exfalso.
      apply (Hno (Z.max (Span.min s) (Span.min t))). unfold Span.mem. lia.
    + intros Hne. split; intros x; rewrite maybeZero_mem; split.
      * intros Hx. split; [unfold Span.mem; lia |].
        intros y Hy. unfold Span.mem in Hy. lia.
      * intros [Hx Hall].
        specialize (Hall (Span.min t) ltac:(unfold Span.mem; lia)).
        unfold Span.mem in Hx. lia.
      * intros Hx. split; [unfold Span.mem; lia |].
        intros y Hy. unfold Span.mem in Hy. lia.
      * intros [Hx Hall].
        specialize (Hall (Span.max t - 1) ltac:(unfold Span.mem; lia)).
        unfold Span.mem in Hx. lia.
Qed.

Lemma Bisect_spec_witness :
  Span.valid (Span.mk 20 40) /\ Span.valid (Span.mk 30 111) /\
  (Span.mem 25 (fst (Span.Bisect (Span.mk 20 40) (Span.mk 30 111))) \/
   Span.mem 25 (snd (Span.Bisect (Span.mk 20 40) (Span.mk 30 111)))).
Proof.
  assert (Hs : Span.valid (Span.mk 20 40)) by (unfold Span.valid; cbn; lia).
  assert (Ht : Span.valid (Span.mk 30 111)) by (unfold Span.valid; cbn; lia).
  split; [exact Hs | split; [exact Ht |]].
  apply (proj1 (Bisect_spec _ _ Hs Ht)).
  unfold Span.mem; cbn; lia.
Defined.

(** ** IntInterval.ExpandMinimal *)

(** C10: [ExpandMinimal] returns the result of [ExpandEnd] when the result
    of [ExpandStart] is strictly larger, and the result of [ExpandStart]
    otherwise, so also on a tie; a panic of either expansion is a panic of
    [ExpandMinimal]. *)
Theorem ExpandMinimal_choice (iv : IntInterval.t) (ps : list Z) :
  IntInterval.ExpandMinimal iv ps =
  match IntInterval.ExpandStart iv ps, IntInterval.ExpandEnd iv ps with
  | Ok a, Ok b =>
      if IntInterval.Size b <? IntInterval.Size a then Ok b else Ok a
  | Ok _, Panic p => Panic p
  | Panic p, _ => Panic p
  end /\
  (forall a b,
      IntInterval.ExpandStart iv ps = Ok a ->
      IntInterval.ExpandEnd iv ps = Ok b ->
      IntInterval.Size a = IntInterval.Size b ->
      IntInterval.ExpandMinimal iv ps = Ok a).
Proof.
  unfold IntInterval.ExpandMinimal. split.
  - destruct (IntInterval.ExpandStart iv ps) as [a | p]; cbn [bind];
      [| reflexivity].
    destruct (IntInterval.ExpandEnd iv ps) as [b | p]; cbn [bind];
      [| reflexivity].
    rewrite Z.gtb_ltb. reflexivity.
  - intros a b -> -> Htie. cbn [bind]. rewrite Z.gtb_ltb, Htie, Z.ltb_irrefl.
    reflexivity.
Qed.

Lemma ExpandMinimal_choice_witness :
  IntInterval.ExpandStart (IntInterval.mk 10 0 1) [5] =
  Ok (IntInterval.mk 10 5 6) /\
  IntInterval.ExpandEnd (IntInterval.mk 10 0 1) [5] =
  Ok (IntInterval.mk 10 0 6) /\
  IntInterval.ExpandMinimal (IntInterval.mk 10 0 1) [5] =
  Ok (IntInterval.mk 10 5 6).
Proof.
  assert (Ha : IntInterval.ExpandStart (IntInterval.mk 10 0 1) [5] =
               Ok (IntInterval.mk 10 5 6)) by reflexivity.
  assert (Hb : IntInterval.ExpandEnd (IntInterval.mk 10 0 1) [5] =
               Ok (IntInterval.mk 10 0 6)) by reflexivity.
  split; [exact Ha | split; [exact Hb |]].
  exact (proj2 (ExpandMinimal_choice (IntInterval.mk 10 0 1) [5])
           _ _ Ha Hb eq_refl).
Defined.

(** ** IntInterval.ExpandStart and ExpandEnd *)

Section ExpandFacts.
Import IntInterval.

Variable iv : t.
Hypothesis iv_wf : wf iv.

Lemma End_ok : exists e, End iv = Ok e /\ 0 <= e < modulus iv.
Proof using iv_wf.
  destruct iv_wf as (Hm & _ & _). unfold End.
  rewrite ArrayOffset_mod by lia. eexists. split; [reflexivity |].
  apply Z.mod_pos_bound. lia.
Qed.

Lemma startOffset_bounds (e p : Z) :
  0 <= e < modulus iv ->
  e - modulus iv <= startOffset (modulus iv) e p < e.
Proof using iv_wf.
  intros He. unfold startOffset. destruct iv_wf as (Hm & _ & _).
  pose proof (Z.mod_pos_bound p (modulus iv) ltac:(lia)).
  rewrite Z.geb_leb. destruct (Z.leb_spec e (p mod modulus iv)); lia.
Qed.

Lemma ExpandStart_loop_inv (e : Z) (ps : list Z) :
  End iv = Ok e -> 0 <= e < modulus iv ->
  forall acc, e - modulus iv <= acc <= GoInt.int_max ->
  exists r,
    ExpandStart_loop iv ps acc = Ok r /\
    e - modulus iv <= r <= acc /\
    (forall p, In p ps -> r <= startOffset (modulus iv) e p).
Proof using iv_wf.
  intros He Hr. destruct iv_wf as (Hm & _ & _).
  induction ps as [| p rest IH]; intros acc Hacc.
  - exists acc. split; [reflexivity |]. split; [lia |]. intros p [].
  - cbn [ExpandStart_loop]. unfold Modulus.
    rewrite ArrayOffset_mod, He by lia. cbn [bind].
    pose proof (Z.mod_pos_bound p (modulus iv) ltac:(lia)) as Hp.
    pose proof (startOffset_bounds e p Hr) as Hso.
    assert (Hoff : (if p mod modulus iv >=? e
                    then GoInt.sub (p mod modulus iv) (modulus iv)
                    else p mod modulus iv)
                   = startOffset (modulus iv) e p).
    { unfold startOffset. destruct (p mod modulus iv >=? e); [| reflexivity].
      apply sub_small. range_lia. }
    rewrite Hoff, intMin_spec.
    destruct (IH (Z.min acc (startOffset (modulus iv) e p)) ltac:(lia))
      as (r & Hloop & Hb & Hall).
    exists r. split; [exact Hloop |]. split; [lia |].
    intros q [<- | Hq]; [lia | exact (Hall q Hq)].
Qed.

(** [ExpandStart] never fails on a well-formed interval; its result is
    well-formed and contains every designator it was given. *)
Lemma ExpandStart_contains (ps : list Z) :
  ps <> [] ->
  exists r,
    ExpandStart iv ps = Ok r /\ wf r /\
    forall p, In p ps -> Contains r p = Ok true.
Proof using iv_wf.
  intros Hne. pose proof iv_wf as (Hm & Hs & Hz).
  unfold ExpandStart, IsComplete, Size.
  assert (Hin : forall r p, wf r -> modulus r = modulus iv ->
            ContainsExactInt r (p mod modulus iv) = true ->
            Contains r p = Ok true).
  { intros r p _ Hmr Hc. unfold Contains, Modulus. rewrite Hmr.
    rewrite ArrayOffset_mod by lia. cbn [bind]. rewrite Hc. reflexivity. }
  destruct (Z.eqb_spec (size iv) (modulus iv)) as [Hc | Hc]; cbn [orb].
  - (* complete: returned as it is *)
    exists iv. split; [reflexivity |]. split; [assumption |].
    intros p _. apply Hin; [assumption | reflexivity |].
    apply ContainsExactInt_iff; [assumption |].
    pose proof (Z.mod_pos_bound p (modulus iv) ltac:(lia)). lia.
  - destruct ps as [| p0 rest]; [contradiction |].
    change (Z.of_nat (length (p0 :: rest)) =? 0) with false. cbv iota.
    destruct End_ok as (e & He & Hr).
    destruct (ExpandStart_loop_inv e (p0 :: rest) He Hr (start iv)
                ltac:(lia)) as (r & Hloop & Hb & Hall).
    rewrite Hloop, He. cbn [bind]. unfold Modulus.
    pose proof (startOffset_bounds e p0 Hr) as H0.
    pose proof (Hall p0 (or_introl eq_refl)) as Hr0.
    rewrite sub_small by range_lia.
    rewrite FromStartSizeInt_ok by lia.
    rewrite Z.min_l by lia.
    assert (Hrm : r mod modulus iv = if r <? 0 then r + modulus iv else r).
    { destruct (Z.ltb_spec r 0).
      - symmetry.
        apply (Zmod_unique_full r (modulus iv) (-1)); [left |]; lia.
      - apply Z.mod_small. lia. }
    assert (Hwf : wf (mk (modulus iv) (r mod modulus iv) (e - r))).
    { unfold wf. cbn [modulus start size].
      pose proof (Z.mod_pos_bound r (modulus iv) ltac:(lia)). lia. }
    eexists. split; [reflexivity |]. split; [exact Hwf |].
    intros p Hp. apply Hin; [exact Hwf | reflexivity |].
    apply ContainsExactInt_iff; [exact Hwf |]. cbn [modulus start size].
    specialize (Hall p Hp). pose proof (startOffset_bounds e p Hr) as Hpb.
    pose proof (Z.mod_pos_bound p (modulus iv) ltac:(lia)) as Hpm.
    rewrite Hrm. unfold startOffset in Hall, Hpb.
    rewrite Z.geb_leb in Hall, Hpb.
    destruct (Z.ltb_spec r 0); destruct (Z.leb_spec e (p mod modulus iv));
      lia.
Qed.

(** The loop of [ExpandEnd] away from overflow: twice the modulus fits an
    [int] and no designator is the largest [int]. *)
Lemma ExpandEnd_loop_inv (ps : list Z) :
  modulus iv + modulus iv <= GoInt.int_max ->
  (forall p, In p ps -> GoInt.in_range (p + 1)) ->
  forall acc, 0 <= acc < start iv + modulus iv ->
  exists r,
    ExpandEnd_loop iv ps acc = Ok r /\
    acc <= r < start iv + modulus iv /\
    (forall p, In p ps -> endTarget (modulus iv) (start iv) p <= r).
Proof using iv_wf.
  intros H2m. destruct iv_wf as (Hm & Hs & _).
  induction ps as [| p rest IH]; intros Hps acc Hacc.
  - exists acc. split; [reflexivity |]. split; [lia |]. intros p [].
  - cbn [ExpandEnd_loop]. unfold Modulus, Start.
    rewrite add_small by (apply Hps; left; reflexivity).
    rewrite ArrayOffset_mod by lia. cbn [bind].
    pose proof (Z.mod_pos_bound (p + 1) (modulus iv) ltac:(lia)) as Hp.
    assert (Hoff : (if (p + 1) mod modulus iv <? start iv
                    then GoInt.add ((p + 1) mod modulus iv) (modulus iv)
                    else (p + 1) mod modulus iv)
                   = endTarget (modulus iv) (start iv) p).
    { unfold endTarget. destruct ((p + 1) mod modulus iv <? start iv);
        [| reflexivity].
      apply add_small. range_lia. }
    assert (Hb : start iv <= endTarget (modulus iv) (start iv) p
                 < start iv + modulus iv).
    { unfold endTarget.
      destruct (Z.ltb_spec ((p + 1) mod modulus iv) (start iv)); lia. }
    rewrite Hoff, intMax_spec.
    destruct (IH (fun q Hq => Hps q (or_intror Hq))
                (Z.max acc (endTarget (modulus iv) (start iv) p))
                ltac:(lia))
      as (r & Hloop & Hr & Hall).
    exists r. split; [exact Hloop |]. split; [lia |].
    intros q [<- | Hq]; [lia | exact (Hall q Hq)].
Qed.

(** Away from overflow [ExpandEnd] does not fail and its result is
    well-formed; it contains every designator except those that normalize
    to the position just before the start. *)
Lemma ExpandEnd_contains_unless_before_start (ps : list Z) :
  modulus iv + modulus iv <= GoInt.int_max ->
  (forall p, In p ps -> GoInt.in_range (p + 1)) ->
  ps <> [] ->
  exists r,
    ExpandEnd iv ps = Ok r /\ wf r /\
    forall p, In p ps -> (p + 1) mod modulus iv <> start iv ->
              Contains r p = Ok true.
Proof using iv_wf.
  intros H2m Hps Hne. pose proof iv_wf as (Hm & Hs & Hz).
  unfold ExpandEnd, IsComplete, Size.
  assert (Hin : forall r p, modulus r = modulus iv ->
            ContainsExactInt r (p mod modulus iv) = true ->
            Contains r p = Ok true).
  { intros r p Hmr Hc. unfold Contains, Modulus. rewrite Hmr.
    rewrite ArrayOffset_mod by lia. cbn [bind]. rewrite Hc. reflexivity. }
  destruct (Z.eqb_spec (size iv) (modulus iv)) as [Hc | Hc]; cbn [orb].
  - exists iv. split; [reflexivity |]. split; [assumption |].
    intros p _ _. apply Hin; [reflexivity |].
    apply ContainsExactInt_iff; [assumption |].
    pose proof (Z.mod_pos_bound p (modulus iv) ltac:(lia)). lia.
  - destruct ps as [| p0 rest]; [contradiction |].
    change (Z.of_nat (length (p0 :: rest)) =? 0) with false. cbv iota.
    destruct End_ok as (e & He & Hr). rewrite He. cbn [bind].
    destruct (ExpandEnd_loop_inv (p0 :: rest) H2m Hps e ltac:(lia))
      as (r & Hloop & Hb & Hall).
    rewrite Hloop. cbn [bind]. unfold Modulus, Start.
    assert (Hb0 : start iv <= endTarget (modulus iv) (start iv) p0).
    { unfold endTarget.
      pose proof (Z.mod_pos_bound (p0 + 1) (modulus iv) ltac:(lia)).
      destruct (Z.ltb_spec ((p0 + 1) mod modulus iv) (start iv)); lia. }
    pose proof (Hall p0 (or_introl eq_refl)) as Hr0.
    rewrite sub_small by range_lia.
    rewrite FromStartSizeInt_ok by lia.
    rewrite Z.min_l, Z.mod_small by lia.
    assert (Hwf : wf (mk (modulus iv) (start iv) (r - start iv))).
    { unfold wf. cbn [modulus start size]. lia. }
    eexists. split; [reflexivity |]. split; [exact Hwf |].
    intros p Hp Hnot. apply Hin; [reflexivity |].
    apply ContainsExactInt_iff; [exact Hwf |]. cbn [modulus start size].
    specialize (Hall p Hp). unfold endTarget in Hall.
    pose proof (Z.mod_pos_bound p (modulus iv) ltac:(lia)) as Hpm.
    assert (Hsucc : (p + 1) mod modulus iv =
                    if p mod modulus iv + 1 =? modulus iv then 0
                    else p mod modulus iv + 1).
    { rewrite <- Zplus_mod_idemp_l.
      destruct (Z.eqb_spec (p mod modulus iv + 1) (modulus iv)) as [-> | Hn].
      - apply Z_mod_same_full.
      - apply Z.mod_small. lia. }
    rewrite Hsucc in Hall, Hnot.
    destruct (Z.eqb_spec (p mod modulus iv + 1) (modulus iv));
      match type of Hall with
      | context [?u <? ?v] => destruct (Z.ltb_spec u v)
      end; lia.
Qed.

(** Away from overflow [ExpandMinimal] does not fail either. *)
Lemma ExpandMinimal_total (ps : list Z) :
  modulus iv + modulus iv <= GoInt.int_max ->
  (forall p, In p ps -> GoInt.in_range (p + 1)) ->
  exists r, ExpandMinimal iv ps = Ok r /\ wf r.
Proof using iv_wf.
  intros H2m Hps. unfold ExpandMinimal.
  destruct ps as [| p0 rest].
  - unfold ExpandStart, ExpandEnd. cbn [length Z.of_nat Z.eqb].
    rewrite orb_true_r. cbn [bind].
    rewrite Z.gtb_ltb, Z.ltb_irrefl. eauto.
  - destruct (ExpandStart_contains (p0 :: rest) ltac:(discriminate))
      as (a & -> & Ha & _).
    destruct (ExpandEnd_contains_unless_before_start (p0 :: rest) H2m Hps
                ltac:(discriminate)) as (b & -> & Hb & _).
    cbn [bind]. destruct (Size a >? Size b); eauto.
Qed.

End ExpandFacts.

(** C2 (evaluation at the failing input): on the interval {3, 4} modulo 10
    and the single designator 2, the position just before the start,
    [ExpandEnd] returns the interval unchanged, and [ExpandMinimal], which
    prefers the smaller result, returns it too; neither contains 2.
    [ExpandStart] returns {2, 3, 4}, which does.  The same happens on the
    empty interval anchored at 3. *)
Theorem ExpandEnd_misses_point_before_start :
  let iv := IntInterval.mk 10 3 2 in
  let empty := IntInterval.mk 10 3 0 in
  IntInterval.FromStartSizeInt 10 3 2 = Ok iv /\
  IntInterval.ExpandEnd iv [2] = Ok iv /\
  IntInterval.ExpandMinimal iv [2] = Ok iv /\
  IntInterval.Contains iv 2 = Ok false /\
  IntInterval.ExpandStart iv [2] = Ok (IntInterval.mk 10 2 3) /\
  IntInterval.Contains (IntInterval.mk 10 2 3) 2 = Ok true /\
  IntInterval.FromStartSizeInt 10 3 0 = Ok empty /\
  IntInterval.ExpandEnd empty [2] = Ok empty /\
  IntInterval.Contains empty 2 = Ok false.
Proof. repeat split. Qed.

(** Beyond the bound on the modulus [ExpandEnd] can even fail: with the
    largest modulus the end of a wrapping interval and the end a designator
    asks for both overflow, and the size handed to the constructor is
    negative. *)
Lemma ExpandEnd_overflow_panics :
  let m := GoInt.int_max in
  let iv := IntInterval.mk m (m - 1) 3 in
  IntInterval.FromStartSizeInt m (m - 1) 3 = Ok iv /\
  IntInterval.ExpandEnd iv [m - 3] = Panic (InvalidSize (- (m - 1))).
Proof. split; vm_compute; reflexivity. Qed.

(** * Further properties of the code *)

(** ** Modulus: residues and distances *)

Section ModulusMore.
Import Modulus.

Variable m : Z.
Hypothesis m_pos : 0 < m.
Hypothesis m_int : m <= GoInt.int_max.

Lemma IntervalSizeForward_formula (a b : Z) :
  IntervalSizeForward m a b =
  Ok (if b mod m <? a mod m then b mod m - a mod m + m
      else b mod m - a mod m).
Proof using m_pos m_int.
  unfold IntervalSizeForward. rewrite !ArrayOffset_mod by assumption.
  cbn [bind].
  rewrite forwardDistance_spec
    by (assumption || apply Z.mod_pos_bound, m_pos).
  reflexivity.
Qed.

Lemma IntervalSizeMin_formula (a b : Z) :
  IntervalSizeMin m a b =
  Ok (Z.min (if b mod m <? a mod m then b mod m - a mod m + m
             else b mod m - a mod m)
            (if a mod m <? b mod m then a mod m - b mod m + m
             else a mod m - b mod m)).
Proof using m_pos m_int.
  unfold IntervalSizeMin. rewrite !ArrayOffset_mod by assumption.
  cbn [bind].
  rewrite intMin_spec, !forwardDistance_spec
    by (assumption || apply Z.mod_pos_bound, m_pos).
  reflexivity.
Qed.

Lemma ArrayOffset_eq_iff (a b : Z) :
  ArrayOffset m a = ArrayOffset m b <-> a mod m = b mod m.
Proof using m_pos m_int.
  rewrite !ArrayOffset_mod by assumption. split; [intros [= H] | intros ->];
    auto.
Qed.

End ModulusMore.

(** X1: on a positive modulus [ArrayOffset] picks the representative of
    the residue class in [0, m): its result lies in [0, m), differs from
    the position by a multiple of the modulus, stays the same when a
    multiple of the modulus is added to the position, and is left unchanged
    by [ArrayOffset]. *)
Theorem ArrayOffset_periodic_idempotent (m position k : Z) :
  0 < m <= GoInt.int_max ->
  exists r,
    Modulus.ArrayOffset m position = Ok r /\
    0 <= r < m /\
    (exists q, position = q * m + r) /\
    Modulus.ArrayOffset m (position + k * m) = Ok r /\
    Modulus.ArrayOffset m r = Ok r.
Proof.
  intros [Hpos Hint]. exists (position mod m).
  rewrite !ArrayOffset_mod by assumption.
  split; [reflexivity |].
  split; [apply Z.mod_pos_bound; exact Hpos |]. split; [| split].
  - exists (position / m).
    pose proof (Z_div_mod_eq_full position m). lia.
  - rewrite Z_mod_plus_full. reflexivity.
  - rewrite Zmod_mod. reflexivity.
Qed.

Lemma ArrayOffset_periodic_idempotent_witness :
  0 < 10 <= GoInt.int_max /\
  exists r,
    Modulus.ArrayOffset 10 (-11) = Ok r /\
    0 <= r < 10 /\
    (exists q, -11 = q * 10 + r) /\
    Modulus.ArrayOffset 10 (-11 + 3 * 10) = Ok r /\
    Modulus.ArrayOffset 10 r = Ok r.
Proof.
  assert (H : 0 < 10 <= GoInt.int_max) by (vm_compute; split; congruence).
  split; [exact H |].
  exact (ArrayOffset_periodic_idempotent 10 (-11) 3 H).
Defined.

(** X2: the forward size from [a] to [b] lies in [0, m); it is 0 exactly
    when the two designators normalize to the same offset; otherwise the
    forward sizes in the two directions add up to the modulus; going forward
    by it from [a] arrives at the offset of [b]. *)
Theorem IntervalSizeForward_complement (m a b : Z) :
  0 < m <= GoInt.int_max ->
  exists f g,
    Modulus.IntervalSizeForward m a b = Ok f /\
    Modulus.IntervalSizeForward m b a = Ok g /\
    0 <= f < m /\
    (f = 0 <-> Modulus.ArrayOffset m a = Modulus.ArrayOffset m b) /\
    (f <> 0 -> f + g = m) /\
    Modulus.ArrayOffset m (a + f) = Modulus.ArrayOffset m b.
Proof.
  intros [Hpos Hint].
  rewrite !IntervalSizeForward_formula by assumption.
  pose proof (Z.mod_pos_bound a m Hpos) as Ha.
  pose proof (Z.mod_pos_bound b m Hpos) as Hb.
  eexists _, _. split; [reflexivity |]. split; [reflexivity |].
  rewrite ArrayOffset_eq_iff by assumption.
  rewrite !(ArrayOffset_mod m Hpos Hint).
  assert (Hland : forall f, a mod m + f = b mod m \/
                            a mod m + f = b mod m + 1 * m ->
                            Ok ((a + f) mod m) = Ok (b mod m) :> result Z).
  { intros f Hf. f_equal. rewrite <- Zplus_mod_idemp_l.
    destruct Hf as [-> | ->]; [| rewrite Z_mod_plus_full]; apply Zmod_mod. }
  destruct (Z.ltb_spec (b mod m) (a mod m));
    destruct (Z.ltb_spec (a mod m) (b mod m)); try lia;
    (split; [lia |]); (split; [lia |]); (split; [lia |]);
    apply Hland; lia.
Qed.

Lemma IntervalSizeForward_complement_witness :
  0 < 10 <= GoInt.int_max /\
  exists f g,
    Modulus.IntervalSizeForward 10 9 7 = Ok f /\
    Modulus.IntervalSizeForward 10 7 9 = Ok g /\
    0 <= f < 10 /\
    (f = 0 <-> Modulus.ArrayOffset 10 9 = Modulus.ArrayOffset 10 7) /\
    (f <> 0 -> f + g = 10) /\
    Modulus.ArrayOffset 10 (9 + f) = Modulus.ArrayOffset 10 7.
Proof.
  assert (H : 0 < 10 <= GoInt.int_max) by (vm_compute; split; congruence).
  split; [exact H |].
  exact (IntervalSizeForward_complement 10 9 7 H).
Defined.

(** X3: [IntervalSizeMin] does not depend on the order of its arguments,
    never exceeds half the modulus, and is 0 exactly when the two
    designators normalize to the same offset. *)
Theorem IntervalSizeMin_symmetric_half (m a b : Z) :
  0 < m <= GoInt.int_max ->
  exists d,
    Modulus.IntervalSizeMin m a b = Ok d /\
    Modulus.IntervalSizeMin m b a = Ok d /\
    0 <= d /\ 2 * d <= m /\
    (d = 0 <-> Modulus.ArrayOffset m a = Modulus.ArrayOffset m b).
Proof.
  intros [Hpos Hint].
  rewrite !IntervalSizeMin_formula by assumption.
  pose proof (Z.mod_pos_bound a m Hpos) as Ha.
  pose proof (Z.mod_pos_bound b m Hpos) as Hb.
  eexists. split; [reflexivity |]. split; [f_equal; apply Z.min_comm |].
  rewrite ArrayOffset_eq_iff by assumption.
  destruct (Z.ltb_spec (b mod m) (a mod m));
    destruct (Z.ltb_spec (a mod m) (b mod m)); lia.
Qed.

Lemma IntervalSizeMin_symmetric_half_witness :
  0 < 10 <= GoInt.int_max /\
  exists d,
    Modulus.IntervalSizeMin 10 9 7 = Ok d /\
    Modulus.IntervalSizeMin 10 7 9 = Ok d /\
    0 <= d /\ 2 * d <= 10 /\
    (d = 0 <-> Modulus.ArrayOffset 10 9 = Modulus.ArrayOffset 10 7).
Proof.
  assert (H : 0 < 10 <= GoInt.int_max) by (vm_compute; split; congruence).
  split; [exact H |].
  exact (IntervalSizeMin_symmetric_half 10 9 7 H).
Defined.

(** ** IntInterval: membership as a modular distance *)

Section MembershipFacts.
Import IntInterval.

Lemma mod_sub_cases (m s i : Z) :
  0 < m -> 0 <= s < m -> 0 <= i < m ->
  (i - s) mod m = if i <? s then i - s + m else i - s.
Proof.
  intros Hm Hs Hi. destruct (Z.ltb_spec i s).
  - symmetry. apply (Zmod_unique_full (i - s) m (-1)); [left |]; lia.
  - apply Z.mod_small. lia.
Qed.

Lemma mod_add_cases (m s k : Z) :
  0 < m -> 0 <= s < m -> 0 <= k <= m ->
  (s + k) mod m = if s + k <? m then s + k else s + k - m.
Proof.
  intros Hm Hs Hk. destruct (Z.ltb_spec (s + k) m).
  - apply Z.mod_small. lia.
  - symmetry. apply (Zmod_unique_full (s + k) m 1); [left |]; lia.
Qed.

Lemma ContainsExactInt_offset (iv : t) (i : Z) :
  wf iv -> 0 <= i < modulus iv ->
  ContainsExactInt iv i = ((i - start iv) mod modulus iv <? size iv).
Proof.
  intros Hwf Hi. pose proof Hwf as (Hm & Hs & Hz).
  pose proof (ContainsExactInt_iff iv i Hwf) as H.
  rewrite mod_sub_cases by lia.
  destruct (ContainsExactInt iv i).
  - symmetry. apply Z.ltb_lt.
    destruct (proj1 H eq_refl); destruct (Z.ltb_spec i (start iv)); lia.
  - symmetry. apply Z.ltb_ge.
    destruct (Z.ltb_spec i (start iv)).
    + destruct (Z_lt_ge_dec (i - start iv + modulus iv) (size iv));
        [| lia].
      assert (false = true) by (apply H; right; lia). discriminate.
    + destruct (Z_lt_ge_dec (i - start iv) (size iv)); [| lia].
      assert (false = true) by (apply H; left; lia). discriminate.
Qed.

Lemma Contains_offset (iv : t) (p : Z) :
  wf iv ->
  Contains iv p = Ok ((p - start iv) mod modulus iv <? size iv).
Proof.
  intros Hwf. pose proof Hwf as (Hm & Hs & Hz). unfold Contains, Modulus.
  rewrite ArrayOffset_mod by lia. cbn [bind].
  rewrite ContainsExactInt_offset
    by (assumption || (apply Z.mod_pos_bound; lia)).
  rewrite Zminus_mod_idemp_l. reflexivity.
Qed.

(** The value of [EqualSets] on intervals with non-negative moduli. *)
Lemma EqualSets_value (a b : t) :
  0 <= modulus a -> 0 <= modulus b ->
  EqualSets a b =
  Ok ((size a =? size b) &&
      ((size a =? 0) || (normStart a =? normStart b))).
Proof.
  intros Hma Hmb.
  assert (Hnorm : forall iv, 0 <= modulus iv -> size iv <> 0 ->
            exists iv', normalized iv = Ok iv' /\ Start iv' = normStart iv).
  { intros iv Hm Hne. unfold normalized, normStart, IsComplete, Size, Modulus.
    destruct (Z.eqb_spec (size iv) (modulus iv)) as [Hc | Hc]; cbn [negb];
      [| eauto].
    unfold FromStartSizeInt, Modulus.ArrayOffset, Modulus.GoModulo.
    destruct (Z.ltb_spec (modulus iv) 0); [lia |].
    rewrite Z.gtb_ltb.
    destruct (Z.ltb_spec (modulus iv) (size iv)); [lia |].
    destruct (Z.ltb_spec (size iv) 0); [lia |]. cbn [bind].
    destruct (Z.eqb_spec (modulus iv) 0); [lia |].
    rewrite Z.rem_0_l by lia. cbn. eauto. }
  unfold EqualSets, IsEmpty, Size.
  destruct (Z.eqb_spec (size a) (size b)) as [Heq | Hneq];
    cbn [negb andb]; [| reflexivity].
  destruct (Z.eqb_spec (size a) 0) as [H0 | H0]; cbn [orb]; [reflexivity |].
  destruct (Hnorm a Hma H0) as (a' & -> & <-).
  destruct (Hnorm b Hmb ltac:(congruence)) as (b' & -> & <-).
  reflexivity.
Qed.

End MembershipFacts.

(** X4: for a positive modulus and a size that is not negative the
    construction returns an interval that keeps the modulus, starts at
    [ArrayOffset start] whatever the size, has the size clamped to the
    modulus, and satisfies the representation invariant; it is complete
    exactly when the requested size reaches the modulus and empty exactly
    when the requested size is 0. *)
Theorem FromStartSizeInt_establishes_invariant (m start size : Z) :
  0 < m <= GoInt.int_max -> 0 <= size ->
  exists iv,
    IntInterval.FromStartSizeInt m start size = Ok iv /\
    IntInterval.wf iv /\
    IntInterval.Modulus iv = m /\
    Modulus.ArrayOffset m start = Ok (IntInterval.Start iv) /\
    IntInterval.Size iv = Z.min size m /\
    (IntInterval.IsComplete iv = true <-> m <= size) /\
    (IntInterval.IsEmpty iv = true <-> size = 0).
Proof.
  intros Hm Hsize. pose proof (FromStartSizeInt_ok m start size Hm Hsize) as E.
  eexists. split; [exact E |].
  split; [exact (FromStartSizeInt_wf _ _ _ _ Hm E) |].
  unfold IntInterval.Modulus, IntInterval.Start, IntInterval.Size,
    IntInterval.IsComplete, IntInterval.IsEmpty, IntInterval.Size.
  cbn [IntInterval.modulus IntInterval.start IntInterval.size].
  split; [reflexivity |]. split; [apply ArrayOffset_mod; lia |].
  split; [reflexivity |]. rewrite !Z.eqb_eq. lia.
Qed.

Lemma FromStartSizeInt_establishes_invariant_witness :
  0 < 3 <= GoInt.int_max /\ 0 <= 50 /\
  exists iv,
    IntInterval.FromStartSizeInt 3 0 50 = Ok iv /\
    IntInterval.wf iv /\
    IntInterval.Modulus iv = 3 /\
    Modulus.ArrayOffset 3 0 = Ok (IntInterval.Start iv) /\
    IntInterval.Size iv = Z.min 50 3 /\
    (IntInterval.IsComplete iv = true <-> 3 <= 50) /\
    (IntInterval.IsEmpty iv = true <-> 50 = 0).
Proof.
  assert (H : 0 < 3 <= GoInt.int_max) by (vm_compute; split; congruence).
  assert (Hs : 0 <= 50) by lia.
  split; [exact H | split; [exact Hs |]].
  exact (FromStartSizeInt_establishes_invariant 3 0 50 H Hs).
Defined.

(** X5: as long as start plus size fits an [int], the end of a well-formed
    interval is the start moved forward by the size, modulo the modulus,
    and it coincides with the start exactly for the empty and for the
    complete interval. *)
Theorem End_eq_Start_iff (iv : IntInterval.t) :
  IntInterval.wf iv ->
  IntInterval.start iv + IntInterval.size iv <= GoInt.int_max ->
  IntInterval.End iv =
  Ok ((IntInterval.Start iv + IntInterval.Size iv)
        mod IntInterval.Modulus iv) /\
  (IntInterval.End iv = Ok (IntInterval.Start iv) <->
   IntInterval.IsEmpty iv = true \/ IntInterval.IsComplete iv = true).
Proof.
  intros (Hm & Hs & Hz) Hfit.
  unfold IntInterval.End, IntInterval.Start, IntInterval.Size,
    IntInterval.Modulus, IntInterval.IsEmpty, IntInterval.IsComplete,
    IntInterval.Size.
  rewrite add_small by range_lia. rewrite ArrayOffset_mod by lia.
  split; [reflexivity |].
  rewrite mod_add_cases by lia. rewrite !Z.eqb_eq.
  destruct (Z.ltb_spec (IntInterval.start iv + IntInterval.size iv)
              (IntInterval.modulus iv)) as [Hlt | Hge]; split;
    try (intros [= H]; lia); intros H; f_equal; lia.
Qed.

Lemma End_eq_Start_iff_witness :
  IntInterval.wf (IntInterval.mk 7 4 7) /\
  IntInterval.start (IntInterval.mk 7 4 7) +
  IntInterval.size (IntInterval.mk 7 4 7) <= GoInt.int_max /\
  IntInterval.End (IntInterval.mk 7 4 7) =
  Ok (IntInterval.Start (IntInterval.mk 7 4 7)).
Proof.
  assert (H : IntInterval.wf (IntInterval.mk 7 4 7)).
  { unfold IntInterval.wf, GoInt.int_max; cbn; lia. }
  assert (Hf : IntInterval.start (IntInterval.mk 7 4 7) +
               IntInterval.size (IntInterval.mk 7 4 7) <= GoInt.int_max).
  { unfold GoInt.int_max; cbn; lia. }
  split; [exact H | split; [exact Hf |]].
  apply (proj2 (End_eq_Start_iff _ H Hf)). right. reflexivity.
Defined.

(** X6: [Contains] is the usual test for a cyclic interval: the designator
    is contained exactly when its distance from the start, taken modulo the
    modulus, is below the size.  Hence the answer does not change when a
    multiple of the modulus is added to the designator. *)
Theorem Contains_iff_offset (iv : IntInterval.t) (p k : Z) :
  IntInterval.wf iv ->
  IntInterval.Contains iv p =
  Ok ((p - IntInterval.Start iv) mod IntInterval.Modulus iv
      <? IntInterval.Size iv) /\
  IntInterval.Contains iv (p + k * IntInterval.Modulus iv) =
  IntInterval.Contains iv p.
Proof.
  intros Hwf. rewrite !Contains_offset by assumption.
  unfold IntInterval.Start, IntInterval.Modulus, IntInterval.Size.
  split; [reflexivity |].
  replace (p + k * IntInterval.modulus iv - IntInterval.start iv)
    with (p - IntInterval.start iv + k * IntInterval.modulus iv) by lia.
  rewrite Z_mod_plus_full. reflexivity.
Qed.

Lemma Contains_iff_offset_witness :
  IntInterval.wf (IntInterval.mk 10 9 4) /\
  IntInterval.Contains (IntInterval.mk 10 9 4) (2 + 3 * 10) = Ok true.
Proof.
  assert (H : IntInterval.wf (IntInterval.mk 10 9 4)).
  { unfold IntInterval.wf, GoInt.int_max; cbn; lia. }
  split; [exact H |].
  exact (eq_trans (proj2 (Contains_iff_offset _ 2 3 H)) eq_refl).
Defined.

(** X7: a complete interval contains every designator and an empty
    interval contains none. *)
Theorem Contains_complete_empty (iv : IntInterval.t) (p : Z) :
  IntInterval.wf iv ->
  (IntInterval.IsComplete iv = true -> IntInterval.Contains iv p = Ok true) /\
  (IntInterval.IsEmpty iv = true -> IntInterval.Contains iv p = Ok false).
Proof.
  intros Hwf. pose proof Hwf as (Hm & Hs & Hz).
  rewrite Contains_offset by assumption.
  pose proof (Z.mod_pos_bound (p - IntInterval.start iv)
                (IntInterval.modulus iv) ltac:(lia)) as Hb.
  unfold IntInterval.IsComplete, IntInterval.IsEmpty, IntInterval.Size.
  rewrite !Z.eqb_eq. split; intros H; f_equal.
  - apply Z.ltb_lt. lia.
  - apply Z.ltb_ge. lia.
Qed.

Lemma Contains_complete_empty_witness :
  IntInterval.wf (IntInterval.mk 3 0 3) /\
  IntInterval.Contains (IntInterval.mk 3 0 3) 3 = Ok true.
Proof.
  assert (H : IntInterval.wf (IntInterval.mk 3 0 3)).
  { unfold IntInterval.wf, GoInt.int_max; cbn; lia. }
  split; [exact H |].
  exact (proj1 (Contains_complete_empty _ 3 H) eq_refl).
Defined.

(** X8: the integers a well-formed interval contains exactly are
    [start], [start + 1], ..., [start + size - 1], each reduced modulo the
    modulus, and no two of these coincide: [Size] is the number of integers
    in the interval. *)
Theorem ContainsExactInt_enumerates (iv : IntInterval.t) :
  IntInterval.wf iv ->
  (forall i,
      IntInterval.ContainsExactInt iv i = true <->
      exists k, 0 <= k < IntInterval.Size iv /\
                i = (IntInterval.Start iv + k) mod IntInterval.Modulus iv) /\
  (forall k1 k2,
      0 <= k1 < IntInterval.Size iv -> 0 <= k2 < IntInterval.Size iv ->
      (IntInterval.Start iv + k1) mod IntInterval.Modulus iv =
      (IntInterval.Start iv + k2) mod IntInterval.Modulus iv ->
      k1 = k2).
Proof.
  intros Hwf. pose proof Hwf as (Hm & Hs & Hz).
  unfold IntInterval.Size, IntInterval.Start, IntInterval.Modulus.
  split.
  - intros i. rewrite ContainsExactInt_iff by assumption. split.
    + intros [H | H].
      * exists (i - IntInterval.start iv). split; [lia |].
        rewrite Z.mod_small; lia.
      * exists (i - IntInterval.start iv + IntInterval.modulus iv).
        split; [lia |]. rewrite mod_add_cases by lia.
        destruct (Z.ltb_spec
                    (IntInterval.start iv +
                     (i - IntInterval.start iv + IntInterval.modulus iv))
                    (IntInterval.modulus iv)); lia.
    + intros (k & Hk & ->). rewrite mod_add_cases by lia.
      destruct (Z.ltb_spec (IntInterval.start iv + k)
                  (IntInterval.modulus iv)); lia.
  - intros k1 k2 H1 H2. rewrite !mod_add_cases by lia.
    destruct (Z.ltb_spec (IntInterval.start iv + k1) (IntInterval.modulus iv));
      destruct (Z.ltb_spec (IntInterval.start iv + k2)
                  (IntInterval.modulus iv)); lia.
Qed.

Lemma ContainsExactInt_enumerates_witness :
  IntInterval.wf (IntInterval.mk 10 9 4) /\
  IntInterval.ContainsExactInt (IntInterval.mk 10 9 4) 1 = true.
Proof.
  assert (H : IntInterval.wf (IntInterval.mk 10 9 4)).
  { unfold IntInterval.wf, GoInt.int_max; cbn; lia. }
  split; [exact H |].
  apply (proj1 (ContainsExactInt_enumerates _ H)).
  exists 2. split; [cbn; lia | reflexivity].
Defined.

(** Two cyclic ranges over the same modulus with the same elements have
    the same size and, unless empty or complete, the same start. *)
Lemma cyclic_sets_equal (m sa za sb zb : Z) :
  0 < m -> 0 <= sa < m -> 0 <= za <= m -> 0 <= sb < m -> 0 <= zb <= m ->
  (forall i,
      ((sa <= i < sa + za /\ i < m) \/ 0 <= i < sa + za - m) <->
      ((sb <= i < sb + zb /\ i < m) \/ 0 <= i < sb + zb - m)) ->
  za = zb /\
  (za = 0 \/ (if za =? m then 0 else sa) = (if zb =? m then 0 else sb)).
Proof.
  intros Hm Hsa Hza Hsb Hzb H.
  assert (Hempty : za = 0 <-> zb = 0).
  { pose proof (H sa). pose proof (H sb). lia. }
  destruct (Z.eq_dec za 0) as [Ha0 | Ha0]; [lia |].
  assert (Hb0 : zb <> 0) by lia.
  assert (Hfull : za = m <-> zb = m).
  { pose proof (H (if sa =? 0 then m - 1 else sa - 1)) as Hpa.
    pose proof (H (if sb =? 0 then m - 1 else sb - 1)) as Hpb.
    split; intros E.
    - clear Hpa. destruct (Z.eqb_spec sb 0); lia.
    - clear Hpb. destruct (Z.eqb_spec sa 0); lia. }
  destruct (Z.eqb_spec za m) as [Eam | Eam];
    destruct (Z.eqb_spec zb m) as [Ebm | Ebm]; try lia.
  assert (Hstart : sa = sb).
  { pose proof (H sa) as H1.
    pose proof (H (if sa =? 0 then m - 1 else sa - 1)) as H2.
    destruct (Z.eqb_spec sa 0); lia. }
  subst sb.
  pose proof (H (if sa + za <? m then sa + za else sa + za - m)) as Hea.
  pose proof (H (if sa + zb <? m then sa + zb else sa + zb - m)) as Heb.
  clear H.
  destruct (Z.ltb_spec (sa + za) m), (Z.ltb_spec (sa + zb) m); lia.
Qed.

(** X9: on two well-formed intervals of the same modulus [EqualSets] is
    true exactly when the intervals contain the same integers. *)
Theorem EqualSets_extensional (a b : IntInterval.t) :
  IntInterval.wf a -> IntInterval.wf b ->
  IntInterval.Modulus a = IntInterval.Modulus b ->
  (IntInterval.EqualSets a b = Ok true <->
   forall i, IntInterval.ContainsExactInt a i =
             IntInterval.ContainsExactInt b i).
Proof.
  intros Ha Hb Hmod. unfold IntInterval.Modulus in Hmod.
  pose proof Ha as (Hma & Hsa & Hza). pose proof Hb as (Hmb & Hsb & Hzb).
  rewrite EqualSets_value by lia.
  unfold IntInterval.normStart, IntInterval.IsComplete, IntInterval.Size,
    IntInterval.Start.
  assert (Hext : (forall i, IntInterval.ContainsExactInt a i =
                            IntInterval.ContainsExactInt b i) <->
                 (forall i,
                     ((IntInterval.start a <= i
                       < IntInterval.start a + IntInterval.size a /\
                       i < IntInterval.modulus a) \/
                      0 <= i < IntInterval.start a + IntInterval.size a
                               - IntInterval.modulus a) <->
                     ((IntInterval.start b <= i
                       < IntInterval.start b + IntInterval.size b /\
                       i < IntInterval.modulus b) \/
                      0 <= i < IntInterval.start b + IntInterval.size b
                               - IntInterval.modulus b))).
  { split; intros H i; specialize (H i).
    - rewrite <- !ContainsExactInt_iff by assumption. rewrite H. reflexivity.
    - rewrite <- !ContainsExactInt_iff in H by assumption.
      destruct (IntInterval.ContainsExactInt a i),
        (IntInterval.ContainsExactInt b i); try reflexivity.
      + symmetry. apply H. reflexivity.
      + apply H. reflexivity. }
  rewrite Hext. clear Hext.
  set (m := IntInterval.modulus b) in *.
  set (sa := IntInterval.start a) in *. set (za := IntInterval.size a) in *.
  set (sb := IntInterval.start b) in *. set (zb := IntInterval.size b) in *.
  rewrite Hmod in *. clearbody m sa za sb zb. clear Hmod Ha Hb a b.
  split.
  - intros [= H]. apply andb_true_iff in H. destruct H as [Hz H].
    apply Z.eqb_eq in Hz. apply orb_true_iff in H. rewrite !Z.eqb_eq in H.
    subst zb. intros i.
    destruct (Z.eqb_spec za m); destruct H; lia.
  - intros H. f_equal. apply andb_true_iff. rewrite orb_true_iff, !Z.eqb_eq.
    exact (cyclic_sets_equal m sa za sb zb ltac:(lia) Hsa Hza Hsb Hzb H).
Qed.

Lemma EqualSets_extensional_witness :
  IntInterval.wf (IntInterval.mk 7 4 7) /\
  IntInterval.wf (IntInterval.mk 7 0 7) /\
  IntInterval.Modulus (IntInterval.mk 7 4 7) =
  IntInterval.Modulus (IntInterval.mk 7 0 7) /\
  IntInterval.ContainsExactInt (IntInterval.mk 7 4 7) 2 =
  IntInterval.ContainsExactInt (IntInterval.mk 7 0 7) 2.
Proof.
  assert (Ha : IntInterval.wf (IntInterval.mk 7 4 7)).
  { unfold IntInterval.wf, GoInt.int_max; cbn; lia. }
  assert (Hb : IntInterval.wf (IntInterval.mk 7 0 7)).
  { unfold IntInterval.wf, GoInt.int_max; cbn; lia. }
  split; [exact Ha | split; [exact Hb | split; [reflexivity |]]].
  exact (proj1 (EqualSets_extensional _ _ Ha Hb eq_refl) eq_refl 2).
Defined.

(** X10: on intervals with non-negative moduli [EqualSets] never fails:
    it returns a boolean for every pair; and it is an equivalence: every
    interval equals itself, the answer does not depend on the order of the
    two intervals, and it is transitive. *)
Theorem EqualSets_equivalence (a b c : IntInterval.t) :
  0 <= IntInterval.Modulus a -> 0 <= IntInterval.Modulus b ->
  0 <= IntInterval.Modulus c ->
  exists ab bc ac : bool,
    IntInterval.EqualSets a b = Ok ab /\
    IntInterval.EqualSets b c = Ok bc /\
    IntInterval.EqualSets a c = Ok ac /\
    IntInterval.EqualSets a a = Ok true /\
    IntInterval.EqualSets b a = Ok ab /\
    (ab = true -> bc = true -> ac = true).
Proof.
  unfold IntInterval.Modulus. intros Ha Hb Hc.
  rewrite !EqualSets_value by assumption.
  eexists _, _, _.
  split; [reflexivity |]. split; [reflexivity |]. split; [reflexivity |].
  split; [| split].
  - rewrite !Z.eqb_refl, orb_true_r. reflexivity.
  - f_equal.
    destruct (Z.eqb_spec (IntInterval.size a) (IntInterval.size b)) as [E | E].
    + rewrite E, Z.eqb_refl, (Z.eqb_sym (IntInterval.normStart a)).
      reflexivity.
    + destruct (Z.eqb_spec (IntInterval.size b) (IntInterval.size a));
        [congruence | reflexivity].
  - intros H1 H2.
    apply andb_true_iff in H1, H2. destruct H1 as [E1 N1], H2 as [E2 N2].
    apply orb_true_iff in N1, N2. rewrite !Z.eqb_eq in *.
    apply andb_true_iff. rewrite orb_true_iff, !Z.eqb_eq. lia.
Qed.

Lemma EqualSets_equivalence_witness :
  0 <= IntInterval.Modulus (IntInterval.mk 7 4 7) /\
  0 <= IntInterval.Modulus (IntInterval.mk 7 0 7) /\
  0 <= IntInterval.Modulus (IntInterval.mk 7 2 7) /\
  exists ab bc ac : bool,
    IntInterval.EqualSets (IntInterval.mk 7 4 7) (IntInterval.mk 7 0 7)
    = Ok ab /\
    IntInterval.EqualSets (IntInterval.mk 7 0 7) (IntInterval.mk 7 2 7)
    = Ok bc /\
    IntInterval.EqualSets (IntInterval.mk 7 4 7) (IntInterval.mk 7 2 7)
    = Ok ac /\
    IntInterval.EqualSets (IntInterval.mk 7 4 7) (IntInterval.mk 7 4 7)
    = Ok true /\
    IntInterval.EqualSets (IntInterval.mk 7 0 7) (IntInterval.mk 7 4 7)
    = Ok ab /\
    (ab = true -> bc = true -> ac = true).
Proof.
  assert (Ha : 0 <= IntInterval.Modulus (IntInterval.mk 7 4 7))
    by (cbn; lia).
  assert (Hb : 0 <= IntInterval.Modulus (IntInterval.mk 7 0 7))
    by (cbn; lia).
  assert (Hc : 0 <= IntInterval.Modulus (IntInterval.mk 7 2 7))
    by (cbn; lia).
  split; [exact Ha | split; [exact Hb | split; [exact Hc |]]].
  exact (EqualSets_equivalence _ _ _ Ha Hb Hc).
Defined.



(** ** IntInterval: the shape of the expansions *)

Section ExpandShape.
Import IntInterval.

Lemma fold_min_props (f : Z -> Z) (ps : list Z) :
  forall acc,
    let r := fold_left (fun x p => Z.min x (f p)) ps acc in
    r <= acc /\
    (forall p, In p ps -> r <= f p) /\
    (r = acc \/ exists p, In p ps /\ r = f p).
Proof.
  induction ps as [| p rest IH]; intros acc; cbn [fold_left].
  - split; [lia |]. split; [intros p [] | left; reflexivity].
  - destruct (IH (Z.min acc (f p))) as (H1 & H2 & H3). cbv zeta.
    split; [lia |]. split.
    + intros q [<- | Hq]; [lia | exact (H2 q Hq)].
    + destruct H3 as [H3 | (q & Hq & H3)].
      * destruct (Z.min_spec acc (f p)) as [[_ E] | [_ E]].
        -- left. congruence.
        -- right. exists p. split; [left; reflexivity | congruence].
      * right. exists q. split; [right; exact Hq | exact H3].
Qed.

Variable iv : t.
Hypothesis iv_wf : wf iv.

Lemma ExpandStart_loop_fold (e : Z) (ps : list Z) :
  End iv = Ok e -> 0 <= e < modulus iv ->
  forall acc,
    ExpandStart_loop iv ps acc =
    Ok (fold_left (fun x p => Z.min x (startOffset (modulus iv) e p)) ps acc).
Proof using iv_wf.
  intros He Hr. destruct iv_wf as (Hm & _ & _).
  induction ps as [| p rest IH]; intros acc; [reflexivity |].
  cbn [ExpandStart_loop fold_left]. unfold Modulus.
  rewrite ArrayOffset_mod, He by lia. cbn [bind].
  pose proof (Z.mod_pos_bound p (modulus iv) ltac:(lia)) as Hp.
  assert (Hoff : (if p mod modulus iv >=? e
                  then GoInt.sub (p mod modulus iv) (modulus iv)
                  else p mod modulus iv)
                 = startOffset (modulus iv) e p).
  { unfold startOffset. destruct (p mod modulus iv >=? e); [| reflexivity].
    apply sub_small. range_lia. }
  rewrite Hoff, intMin_spec. apply IH.
Qed.

(** On an incomplete interval and at least one designator, [ExpandStart]
    moves the start down to the least offset [r0] and keeps the end [e]. *)
Lemma ExpandStart_shape (e : Z) (ps : list Z) :
  End iv = Ok e -> size iv <> modulus iv -> ps <> [] ->
  exists r0,
    r0 = fold_left (fun x p => Z.min x (startOffset (modulus iv) e p))
           ps (start iv) /\
    ExpandStart iv ps = Ok (mk (modulus iv) (r0 mod modulus iv) (e - r0)) /\
    e - modulus iv <= r0 < e /\ r0 <= start iv /\
    r0 mod modulus iv = (if r0 <? 0 then r0 + modulus iv else r0).
Proof using iv_wf.
  intros He Hc Hne. pose proof iv_wf as (Hm & Hs & Hz).
  assert (Hr : 0 <= e < modulus iv).
  { destruct (End_ok iv iv_wf) as (e' & He' & Hr'). congruence. }
  eexists. split; [reflexivity |].
  set (r0 := fold_left _ ps (start iv)).
  destruct (fold_min_props (startOffset (modulus iv) e) ps (start iv))
    as (H1 & H2 & H3). fold r0 in H1, H2, H3.
  assert (Hlow : e - modulus iv <= r0).
  { destruct H3 as [-> | (p & _ & ->)]; [lia |].
    apply (startOffset_bounds iv iv_wf e p Hr). }
  assert (Hup : r0 < e).
  { destruct ps as [| p0 rest]; [contradiction |].
    pose proof (H2 p0 (or_introl eq_refl)).
    pose proof (startOffset_bounds iv iv_wf e p0 Hr). lia. }
  assert (Hrm : r0 mod modulus iv = if r0 <? 0 then r0 + modulus iv else r0).
  { destruct (Z.ltb_spec r0 0).
    - symmetry.
      apply (Zmod_unique_full r0 (modulus iv) (-1)); [left |]; lia.
    - apply Z.mod_small. lia. }
  split; [| repeat split; assumption || lia].
  unfold ExpandStart, IsComplete, Size.
  destruct (Z.eqb_spec (size iv) (modulus iv)); [contradiction |].
  destruct ps as [| p0 rest]; [contradiction |].
  change (Z.of_nat (length (p0 :: rest)) =? 0) with false. cbn [orb].
  rewrite (ExpandStart_loop_fold e (p0 :: rest) He Hr). fold r0.
  rewrite He. cbn [bind]. unfold Modulus.
  rewrite sub_small by range_lia.
  rewrite FromStartSizeInt_ok by lia.
  rewrite Z.min_l by lia. reflexivity.
Qed.

(** The end of the interval [ExpandStart] returns, away from overflow. *)
Lemma ExpandStart_shape_End (e r0 : Z) :
  modulus iv + modulus iv <= GoInt.int_max ->
  0 <= e < modulus iv -> e - modulus iv <= r0 < e ->
  End (mk (modulus iv) (r0 mod modulus iv) (e - r0)) = Ok e.
Proof using iv_wf.
  intros H2m He Hr0. destruct iv_wf as (Hm & _ & _).
  unfold End. cbn [modulus start size].
  pose proof (Z.mod_pos_bound r0 (modulus iv) ltac:(lia)).
  rewrite add_small by range_lia.
  rewrite ArrayOffset_mod by lia. f_equal.
  rewrite Zplus_mod_idemp_l.
  replace (r0 + (e - r0)) with e by lia. apply Z.mod_small. lia.
Qed.

End ExpandShape.

(** X12: [ExpandStart] never fails on a well-formed interval; the interval
    it returns is well-formed, has the same modulus and contains every
    designator it was given. *)
Theorem ExpandStart_covers (iv : IntInterval.t) (ps : list Z) :
  IntInterval.wf iv ->
  exists r,
    IntInterval.ExpandStart iv ps = Ok r /\
    IntInterval.wf r /\
    IntInterval.Modulus r = IntInterval.Modulus iv /\
    forall p, In p ps -> IntInterval.Contains r p = Ok true.
Proof.
  intros Hwf. pose proof Hwf as (Hm & Hs & Hz).
  destruct ps as [| p0 rest].
  - exists iv. unfold IntInterval.ExpandStart. cbn [length Z.of_nat Z.eqb].
    rewrite orb_true_r.
    split; [reflexivity |]. split; [assumption |]. split; [reflexivity |].
    intros p [].
  - destruct (Z.eq_dec (IntInterval.size iv) (IntInterval.modulus iv))
      as [Hc | Hc].
    + exists iv. unfold IntInterval.ExpandStart, IntInterval.IsComplete,
        IntInterval.Size.
      rewrite (proj2 (Z.eqb_eq _ _) Hc). cbn [orb].
      split; [reflexivity |]. split; [assumption |]. split; [reflexivity |].
      intros p _.
      rewrite Contains_offset by assumption. f_equal. apply Z.ltb_lt.
      pose proof (Z.mod_pos_bound (p - IntInterval.start iv)
                    (IntInterval.modulus iv) ltac:(lia)). lia.
    + destruct (End_ok iv Hwf) as (e & He & Hr).
      destruct (ExpandStart_shape iv Hwf e (p0 :: rest) He Hc
                  ltac:(discriminate)) as (r0 & Er0 & E & Hb & Hle & Hrm).
      assert (Hall : forall p, In p (p0 :: rest) ->
                r0 <= IntInterval.startOffset (IntInterval.modulus iv) e p).
      { intros p Hp. subst r0.
        apply (fold_min_props
                 (IntInterval.startOffset (IntInterval.modulus iv) e)
                 (p0 :: rest) (IntInterval.start iv)). exact Hp. }
      assert (Hwf' : IntInterval.wf
                (IntInterval.mk (IntInterval.modulus iv)
                   (r0 mod IntInterval.modulus iv) (e - r0))).
      { unfold IntInterval.wf.
        cbn [IntInterval.modulus IntInterval.start IntInterval.size].
        pose proof (Z.mod_pos_bound r0 (IntInterval.modulus iv) ltac:(lia)).
        lia. }
      eexists. split; [exact E |]. split; [exact Hwf' |].
      split; [reflexivity |].
      intros p Hp. rewrite Contains_offset by exact Hwf'.
      cbn [IntInterval.modulus IntInterval.start IntInterval.size].
      f_equal. apply Z.ltb_lt.
      rewrite Zminus_mod_idemp_r.
      specialize (Hall p Hp).
      pose proof (startOffset_bounds iv Hwf e p Hr) as Hpb.
      pose proof (Z.mod_pos_bound p (IntInterval.modulus iv) ltac:(lia)).
      rewrite <- Zminus_mod_idemp_l.
      unfold IntInterval.startOffset in Hall, Hpb.
      rewrite Z.geb_leb in Hall, Hpb.
      destruct (Z.leb_spec e (p mod IntInterval.modulus iv)).
      * replace (p mod IntInterval.modulus iv - r0)
          with (p mod IntInterval.modulus iv - IntInterval.modulus iv - r0
                + 1 * IntInterval.modulus iv) by lia.
        rewrite Z_mod_plus_full, Z.mod_small; lia.
      * rewrite Z.mod_small; lia.
Qed.

Lemma ExpandStart_covers_witness :
  IntInterval.wf (IntInterval.mk 10 3 3) /\
  exists r,
    IntInterval.ExpandStart (IntInterval.mk 10 3 3) [0; -1; -2] = Ok r /\
    IntInterval.wf r /\
    IntInterval.Modulus r = IntInterval.Modulus (IntInterval.mk 10 3 3) /\
    forall p, In p [0; -1; -2] -> IntInterval.Contains r p = Ok true.
Proof.
  assert (H : IntInterval.wf (IntInterval.mk 10 3 3)).
  { unfold IntInterval.wf, GoInt.int_max; cbn; lia. }
  split; [exact H |].
  exact (ExpandStart_covers _ [0; -1; -2] H).
Defined.

(** X13: when twice the modulus fits an [int], [ExpandStart] leaves the end
    of the interval where it was, and expanding the result by the same
    designators again changes nothing. *)
Theorem ExpandStart_keeps_end_idempotent (iv : IntInterval.t) (ps : list Z) :
  IntInterval.wf iv ->
  IntInterval.modulus iv + IntInterval.modulus iv <= GoInt.int_max ->
  exists r,
    IntInterval.ExpandStart iv ps = Ok r /\
    IntInterval.End r = IntInterval.End iv /\
    IntInterval.ExpandStart r ps = Ok r.
Proof.
  intros Hwf H2m. pose proof Hwf as (Hm & Hs & Hz).
  destruct ps as [| p0 rest].
  { exists iv. unfold IntInterval.ExpandStart. cbn [length Z.of_nat Z.eqb].
    rewrite orb_true_r. repeat split. }
  destruct (Z.eq_dec (IntInterval.size iv) (IntInterval.modulus iv))
    as [Hc | Hc].
  { exists iv. unfold IntInterval.ExpandStart, IntInterval.IsComplete,
      IntInterval.Size.
    rewrite (proj2 (Z.eqb_eq _ _) Hc). cbn [orb]. repeat split. }
  destruct (End_ok iv Hwf) as (e & He & Hr).
  destruct (ExpandStart_shape iv Hwf e (p0 :: rest) He Hc
              ltac:(discriminate)) as (r0 & Er0 & E & Hb & Hle & Hrm).
  set (r := IntInterval.mk (IntInterval.modulus iv)
              (r0 mod IntInterval.modulus iv) (e - r0)) in *.
  assert (Hend : IntInterval.End r = Ok e)
    by (apply (ExpandStart_shape_End iv Hwf); assumption).
  exists r. split; [exact E |]. split; [congruence |].
  assert (Hwf' : IntInterval.wf r).
  { unfold IntInterval.wf, r.
    cbn [IntInterval.modulus IntInterval.start IntInterval.size].
    pose proof (Z.mod_pos_bound r0 (IntInterval.modulus iv) ltac:(lia)).
    lia. }
  destruct (Z.eq_dec (IntInterval.size r) (IntInterval.modulus r))
    as [Hc' | Hc'].
  { unfold IntInterval.ExpandStart, IntInterval.IsComplete, IntInterval.Size.
    rewrite (proj2 (Z.eqb_eq _ _) Hc'). reflexivity. }
  destruct (ExpandStart_shape r Hwf' e (p0 :: rest) Hend Hc'
              ltac:(discriminate)) as (r1 & Er1 & E' & Hb' & Hle' & Hrm').
  rewrite E'.
  change (IntInterval.modulus r) with (IntInterval.modulus iv) in *.
  change (IntInterval.start r) with (r0 mod IntInterval.modulus iv) in *.
  (* the second pass finds the same least offset *)
  assert (Hsame : r1 = r0).
  { destruct (fold_min_props
                (IntInterval.startOffset (IntInterval.modulus iv) e)
                (p0 :: rest) (IntInterval.start iv)) as (_ & A2 & A3).
    destruct (fold_min_props
                (IntInterval.startOffset (IntInterval.modulus iv) e)
                (p0 :: rest) (r0 mod IntInterval.modulus iv))
      as (B1 & B2 & B3).
    rewrite <- Er0 in A2, A3. rewrite <- Er1 in B1, B2, B3.
    rewrite Hrm in B1, B3.
    destruct (Z.ltb_spec r0 0) as [Hneg | Hnn].
    - destruct A3 as [A3 | (q & Hq & A3)]; [lia |].
      pose proof (B2 q Hq).
      destruct B3 as [B3 | (q' & Hq' & B3)]; [lia |].
      pose proof (A2 q' Hq'). lia.
    - destruct B3 as [B3 | (q' & Hq' & B3)]; [lia |].
      pose proof (A2 q' Hq'). lia. }
  rewrite Hsame. reflexivity.
Qed.

Lemma ExpandStart_keeps_end_idempotent_witness :
  IntInterval.wf (IntInterval.mk 10 5 3) /\
  IntInterval.modulus (IntInterval.mk 10 5 3) +
  IntInterval.modulus (IntInterval.mk 10 5 3) <= GoInt.int_max /\
  exists r,
    IntInterval.ExpandStart (IntInterval.mk 10 5 3) [4; 2] = Ok r /\
    IntInterval.End r = IntInterval.End (IntInterval.mk 10 5 3) /\
    IntInterval.ExpandStart r [4; 2] = Ok r.
Proof.
  assert (H : IntInterval.wf (IntInterval.mk 10 5 3)).
  { unfold IntInterval.wf, GoInt.int_max; cbn; lia. }
  assert (Hb : IntInterval.modulus (IntInterval.mk 10 5 3) +
               IntInterval.modulus (IntInterval.mk 10 5 3)
               <= GoInt.int_max).
  { unfold GoInt.int_max; cbn; lia. }
  split; [exact H | split; [exact Hb |]].
  exact (ExpandStart_keeps_end_idempotent _ [4; 2] H Hb).
Defined.

(** X14: on an interval that stays below the modulus (start + size < m)
    [ExpandStart] only adds integers: everything the interval contained is
    contained in the result. *)
Theorem ExpandStart_superset_below_modulus (iv : IntInterval.t) (ps : list Z) :
  IntInterval.wf iv ->
  IntInterval.start iv + IntInterval.size iv < IntInterval.modulus iv ->
  exists r,
    IntInterval.ExpandStart iv ps = Ok r /\
    forall i, IntInterval.ContainsExactInt iv i = true ->
              IntInterval.ContainsExactInt r i = true.
Proof.
  intros Hwf Hfit. pose proof Hwf as (Hm & Hs & Hz).
  destruct ps as [| p0 rest].
  { exists iv. unfold IntInterval.ExpandStart. cbn [length Z.of_nat Z.eqb].
    rewrite orb_true_r. split; [reflexivity | auto]. }
  assert (He : IntInterval.End iv =
               Ok (IntInterval.start iv + IntInterval.size iv)).
  { unfold IntInterval.End. rewrite add_small by range_lia.
    rewrite ArrayOffset_mod by lia. f_equal. apply Z.mod_small. lia. }
  destruct (ExpandStart_shape iv Hwf _ (p0 :: rest) He ltac:(lia)
              ltac:(discriminate)) as (r0 & _ & E & Hb & Hle & Hrm).
  eexists. split; [exact E |].
  assert (Hwf' : IntInterval.wf
            (IntInterval.mk (IntInterval.modulus iv)
               (r0 mod IntInterval.modulus iv)
               (IntInterval.start iv + IntInterval.size iv - r0))).
  { unfold IntInterval.wf.
    cbn [IntInterval.modulus IntInterval.start IntInterval.size].
    pose proof (Z.mod_pos_bound r0 (IntInterval.modulus iv) ltac:(lia)).
    lia. }
  intros i Hi. apply ContainsExactInt_iff in Hi; [| assumption].
  apply ContainsExactInt_iff; [exact Hwf' |].
  cbn [IntInterval.modulus IntInterval.start IntInterval.size].
  rewrite Hrm. destruct (Z.ltb_spec r0 0); lia.
Qed.

Lemma ExpandStart_superset_below_modulus_witness :
  IntInterval.wf (IntInterval.mk 10 5 3) /\
  IntInterval.start (IntInterval.mk 10 5 3) +
  IntInterval.size (IntInterval.mk 10 5 3) <
  IntInterval.modulus (IntInterval.mk 10 5 3) /\
  exists r,
    IntInterval.ExpandStart (IntInterval.mk 10 5 3) [9] = Ok r /\
    forall i,
      IntInterval.ContainsExactInt (IntInterval.mk 10 5 3) i = true ->
      IntInterval.ContainsExactInt r i = true.
Proof.
  assert (H : IntInterval.wf (IntInterval.mk 10 5 3)).
  { unfold IntInterval.wf, GoInt.int_max; cbn; lia. }
  assert (Hb : IntInterval.start (IntInterval.mk 10 5 3) +
               IntInterval.size (IntInterval.mk 10 5 3) <
               IntInterval.modulus (IntInterval.mk 10 5 3)) by (cbn; lia).
  split; [exact H | split; [exact Hb |]].
  exact (ExpandStart_superset_below_modulus _ [9] H Hb).
Defined.

(** X15: [ExpandStart] can also remove integers.  When twice the modulus
    fits an [int], on an incomplete interval that reaches the modulus or
    wraps past it, expanding by the last position [m - 1], which the
    interval already contains, moves the start to [m - 1]: when the old
    start was lower, it is no longer contained. *)
Theorem ExpandStart_drops_start_of_wrapping (iv : IntInterval.t) :
  IntInterval.wf iv ->
  IntInterval.modulus iv + IntInterval.modulus iv <= GoInt.int_max ->
  IntInterval.size iv < IntInterval.modulus iv ->
  IntInterval.modulus iv <= IntInterval.start iv + IntInterval.size iv ->
  IntInterval.start iv + 1 < IntInterval.modulus iv ->
  let m := IntInterval.modulus iv in
  let r := IntInterval.mk m (m - 1)
             (IntInterval.start iv + IntInterval.size iv - m + 1) in
  IntInterval.ExpandStart iv [m - 1] = Ok r /\
  IntInterval.Contains iv (m - 1) = Ok true /\
  IntInterval.ContainsExactInt iv (IntInterval.Start iv) = true /\
  IntInterval.ContainsExactInt r (IntInterval.Start iv) = false.
Proof.
  intros Hwf H2m Hinc Hwrap Hlow m r. pose proof Hwf as (Hm & Hs & Hz).
  fold m in H2m, Hinc, Hwrap, Hlow, Hm, Hs, Hz.
  assert (He : IntInterval.End iv =
               Ok (IntInterval.start iv + IntInterval.size iv - m)).
  { unfold IntInterval.End. rewrite add_small by range_lia.
    rewrite ArrayOffset_mod by (fold m; lia). fold m. f_equal.
    rewrite mod_add_cases by lia.
    destruct (Z.ltb_spec (IntInterval.start iv + IntInterval.size iv) m);
      lia. }
  destruct (ExpandStart_shape iv Hwf _ [m - 1] He ltac:(fold m; lia)
              ltac:(discriminate)) as (r0 & Er0 & E & _).
  assert (Hr0 : r0 = -1).
  { rewrite Er0. cbn [fold_left]. unfold IntInterval.startOffset. fold m.
    rewrite (Z.mod_small (m - 1) m) by lia. rewrite Z.geb_leb.
    destruct (Z.leb_spec (IntInterval.start iv + IntInterval.size iv - m)
                (m - 1)); lia. }
  assert (Hwfr : IntInterval.wf r).
  { unfold IntInterval.wf, r.
    cbn [IntInterval.modulus IntInterval.start IntInterval.size]. lia. }
  split; [| split; [| split]].
  - rewrite E, Hr0. fold m. unfold r. do 2 f_equal; try lia.
    symmetry. apply (Zmod_unique_full (-1) m (-1)); [left |]; lia.
  - rewrite Contains_offset by assumption. fold m. f_equal. apply Z.ltb_lt.
    rewrite Z.mod_small; lia.
  - apply ContainsExactInt_iff; [assumption |]. unfold IntInterval.Start.
    fold m. lia.
  - destruct (IntInterval.ContainsExactInt r (IntInterval.Start iv)) eqn:C;
      [| reflexivity].
    apply ContainsExactInt_iff in C; [| exact Hwfr].
    unfold r, IntInterval.Start in C.
    cbn [IntInterval.modulus IntInterval.start IntInterval.size] in C. lia.
Qed.

Lemma ExpandStart_drops_start_of_wrapping_witness :
  let iv := IntInterval.mk 10 5 5 in
  IntInterval.wf iv /\
  IntInterval.ExpandStart iv [9] = Ok (IntInterval.mk 10 9 1) /\
  IntInterval.ContainsExactInt iv 5 = true /\
  IntInterval.ContainsExactInt (IntInterval.mk 10 9 1) 5 = false.
Proof.
  cbv zeta.
  assert (H : IntInterval.wf (IntInterval.mk 10 5 5)).
  { unfold IntInterval.wf, GoInt.int_max; cbn; lia. }
  assert (H1 : IntInterval.modulus (IntInterval.mk 10 5 5) +
               IntInterval.modulus (IntInterval.mk 10 5 5)
               <= GoInt.int_max) by (unfold GoInt.int_max; cbn; lia).
  assert (H2 : IntInterval.size (IntInterval.mk 10 5 5) <
               IntInterval.modulus (IntInterval.mk 10 5 5)) by (cbn; lia).
  assert (H3 : IntInterval.modulus (IntInterval.mk 10 5 5) <=
               IntInterval.start (IntInterval.mk 10 5 5) +
               IntInterval.size (IntInterval.mk 10 5 5)) by (cbn; lia).
  assert (H4 : IntInterval.start (IntInterval.mk 10 5 5) + 1 <
               IntInterval.modulus (IntInterval.mk 10 5 5)) by (cbn; lia).
  pose proof (ExpandStart_drops_start_of_wrapping _ H H1 H2 H3 H4)
    as (A & _ & B & C).
  split; [exact H |]. split; [exact A |]. split; [exact B | exact C].
Defined.

Section ExpandEndShape.
Import IntInterval.

Variable iv : t.
Hypothesis iv_wf : wf iv.
Hypothesis twice_fits : modulus iv + modulus iv <= GoInt.int_max.

Lemma endTarget_bounds (p : Z) :
  start iv <= endTarget (modulus iv) (start iv) p < start iv + modulus iv.
Proof using iv_wf.
  destruct iv_wf as (Hm & Hs & _). unfold endTarget.
  pose proof (Z.mod_pos_bound (p + 1) (modulus iv) ltac:(lia)).
  destruct (Z.ltb_spec ((p + 1) mod modulus iv) (start iv)); lia.
Qed.

Lemma ExpandEnd_loop_fold (ps : list Z) :
  (forall p, In p ps -> GoInt.in_range (p + 1)) ->
  forall acc,
    ExpandEnd_loop iv ps acc =
    Ok (fold_left (fun x p => Z.max x (endTarget (modulus iv) (start iv) p))
          ps acc).
Proof using iv_wf twice_fits.
  destruct iv_wf as (Hm & Hs & _).
  induction ps as [| p rest IH]; intros Hps acc; [reflexivity |].
  cbn [ExpandEnd_loop fold_left]. unfold Modulus, Start.
  rewrite add_small by (apply Hps; left; reflexivity).
  rewrite ArrayOffset_mod by lia. cbn [bind].
  pose proof (Z.mod_pos_bound (p + 1) (modulus iv) ltac:(lia)) as Hp.
  assert (Hoff : (if (p + 1) mod modulus iv <? start iv
                  then GoInt.add ((p + 1) mod modulus iv) (modulus iv)
                  else (p + 1) mod modulus iv)
                 = endTarget (modulus iv) (start iv) p).
  { unfold endTarget. destruct ((p + 1) mod modulus iv <? start iv);
      [| reflexivity].
    apply add_small. range_lia. }
  rewrite Hoff, intMax_spec. apply IH. intros q Hq. apply Hps. right. exact Hq.
Qed.

Lemma fold_max_props (f : Z -> Z) (ps : list Z) :
  forall acc,
    let r := fold_left (fun x p => Z.max x (f p)) ps acc in
    acc <= r /\
    (forall p, In p ps -> f p <= r) /\
    (r = acc \/ exists p, In p ps /\ r = f p).
Proof.
  induction ps as [| p rest IH]; intros acc; cbn [fold_left].
  - split; [lia |]. split; [intros p [] | left; reflexivity].
  - destruct (IH (Z.max acc (f p))) as (H1 & H2 & H3). cbv zeta.
    split; [lia |]. split.
    + intros q [<- | Hq]; [lia | exact (H2 q Hq)].
    + destruct H3 as [H3 | (q & Hq & H3)].
      * destruct (Z.max_spec acc (f p)) as [[_ E] | [_ E]].
        -- right. exists p. split; [left; reflexivity | congruence].
        -- left. congruence.
      * right. exists q. split; [right; exact Hq | exact H3].
Qed.

(** On an incomplete interval and at least one designator, [ExpandEnd]
    keeps the start and moves the end up to the largest target [r]. *)
Lemma ExpandEnd_shape (e : Z) (ps : list Z) :
  (forall p, In p ps -> GoInt.in_range (p + 1)) ->
  End iv = Ok e -> size iv <> modulus iv -> ps <> [] ->
  exists r,
    r = fold_left (fun x p => Z.max x (endTarget (modulus iv) (start iv) p))
          ps e /\
    ExpandEnd iv ps = Ok (mk (modulus iv) (start iv) (r - start iv)) /\
    start iv <= r < start iv + modulus iv /\ e <= r.
Proof using iv_wf twice_fits.
  intros Hps He Hc Hne. pose proof iv_wf as (Hm & Hs & Hz).
  assert (Hr : 0 <= e < modulus iv).
  { destruct (End_ok iv iv_wf) as (e' & He' & Hr'). congruence. }
  eexists. split; [reflexivity |].
  set (r := fold_left _ ps e).
  destruct (fold_max_props (endTarget (modulus iv) (start iv)) ps e)
    as (H1 & H2 & H3). fold r in H1, H2, H3.
  assert (Hup : r < start iv + modulus iv).
  { destruct H3 as [-> | (p & _ & ->)]; [lia |]. apply endTarget_bounds. }
  assert (Hlow : start iv <= r).
  { destruct ps as [| p0 rest]; [contradiction |].
    pose proof (H2 p0 (or_introl eq_refl)).
    pose proof (endTarget_bounds p0). lia. }
  split; [| repeat split; assumption || lia].
  unfold ExpandEnd, IsComplete, Size.
  destruct (Z.eqb_spec (size iv) (modulus iv)); [contradiction |].
  destruct ps as [| p0 rest]; [contradiction |].
  change (Z.of_nat (length (p0 :: rest)) =? 0) with false. cbn [orb].
  rewrite He. cbn [bind].
  rewrite (ExpandEnd_loop_fold (p0 :: rest) Hps). fold r. cbn [bind].
  unfold Modulus, Start.
  rewrite sub_small by range_lia.
  rewrite FromStartSizeInt_ok by lia.
  rewrite Z.min_l, Z.mod_small by lia. reflexivity.
Qed.

End ExpandEndShape.

(** X16: away from overflow (twice the modulus fits an [int], no designator
    is the largest [int]) [ExpandEnd] never fails; the interval it returns
    is well-formed, keeps the modulus and the start, contains every
    designator that does not normalize to the position just before the
    start, and is never complete unless the interval already was. *)
Theorem ExpandEnd_keeps_start (iv : IntInterval.t) (ps : list Z) :
  IntInterval.wf iv ->
  IntInterval.modulus iv + IntInterval.modulus iv <= GoInt.int_max ->
  (forall p, In p ps -> GoInt.in_range (p + 1)) ->
  exists r,
    IntInterval.ExpandEnd iv ps = Ok r /\
    IntInterval.wf r /\
    IntInterval.Modulus r = IntInterval.Modulus iv /\
    IntInterval.Start r = IntInterval.Start iv /\
    (IntInterval.IsComplete iv = false -> IntInterval.IsComplete r = false) /\
    (forall p, In p ps ->
               (p + 1) mod IntInterval.Modulus iv <> IntInterval.Start iv ->
               IntInterval.Contains r p = Ok true).
Proof.
  intros Hwf H2m Hps. pose proof Hwf as (Hm & Hs & Hz).
  assert (Hid : IntInterval.ExpandEnd iv ps = Ok iv ->
                (forall p, In p ps -> IntInterval.Contains iv p = Ok true) ->
                exists r,
                  IntInterval.ExpandEnd iv ps = Ok r /\
                  IntInterval.wf r /\
                  IntInterval.Modulus r = IntInterval.Modulus iv /\
                  IntInterval.Start r = IntInterval.Start iv /\
                  (IntInterval.IsComplete iv = false ->
                   IntInterval.IsComplete r = false) /\
                  (forall p, In p ps ->
                     (p + 1) mod IntInterval.Modulus iv
                     <> IntInterval.Start iv ->
                     IntInterval.Contains r p = Ok true)).
  { intros E Hall. exists iv. split; [exact E |]. split; [exact Hwf |].
    split; [reflexivity |]. split; [reflexivity |]. split; [auto |].
    intros p Hp _. exact (Hall p Hp). }
  destruct ps as [| p0 rest].
  { apply Hid; [| intros p []].
    unfold IntInterval.ExpandEnd. cbn [length Z.of_nat Z.eqb].
    rewrite orb_true_r. reflexivity. }
  destruct (Z.eq_dec (IntInterval.size iv) (IntInterval.modulus iv))
    as [Hc | Hc].
  { apply Hid.
    - unfold IntInterval.ExpandEnd, IntInterval.IsComplete, IntInterval.Size.
      rewrite (proj2 (Z.eqb_eq _ _) Hc). reflexivity.
    - intros p _. rewrite Contains_offset by assumption. f_equal.
      apply Z.ltb_lt.
      pose proof (Z.mod_pos_bound (p - IntInterval.start iv)
                    (IntInterval.modulus iv) ltac:(lia)). lia. }
  clear Hid.
  destruct (End_ok iv Hwf) as (e & He & Hr).
  destruct (ExpandEnd_shape iv Hwf H2m e (p0 :: rest) Hps He Hc
              ltac:(discriminate)) as (r & Er & E & Hb & Hle).
  assert (Hwf' : IntInterval.wf
            (IntInterval.mk (IntInterval.modulus iv) (IntInterval.start iv)
               (r - IntInterval.start iv))).
  { unfold IntInterval.wf.
    cbn [IntInterval.modulus IntInterval.start IntInterval.size]. lia. }
  eexists. split; [exact E |]. split; [exact Hwf' |].
  split; [reflexivity |]. split; [reflexivity |]. split.
  - intros _. unfold IntInterval.IsComplete, IntInterval.Size.
    cbn [IntInterval.modulus IntInterval.size]. apply Z.eqb_neq. lia.
  - unfold IntInterval.Modulus, IntInterval.Start. intros p Hp Hnot.
    assert (Hall : IntInterval.endTarget (IntInterval.modulus iv)
                     (IntInterval.start iv) p <= r).
    { rewrite Er.
      apply (fold_max_props
               (IntInterval.endTarget (IntInterval.modulus iv)
                  (IntInterval.start iv)) (p0 :: rest) e). exact Hp. }
    rewrite Contains_offset by exact Hwf'.
    cbn [IntInterval.modulus IntInterval.start IntInterval.size].
    f_equal. apply Z.ltb_lt.
    pose proof (Z.mod_pos_bound p (IntInterval.modulus iv) ltac:(lia)) as Hpm.
    assert (Hsucc : (p + 1) mod IntInterval.modulus iv =
                    if p mod IntInterval.modulus iv + 1
                       =? IntInterval.modulus iv then 0
                    else p mod IntInterval.modulus iv + 1).
    { rewrite <- Zplus_mod_idemp_l.
      destruct (Z.eqb_spec (p mod IntInterval.modulus iv + 1)
                  (IntInterval.modulus iv)) as [-> | Hn].
      - apply Z_mod_same_full.
      - apply Z.mod_small. lia. }
    unfold IntInterval.endTarget in Hall. rewrite Hsucc in Hall, Hnot.
    rewrite <- Zminus_mod_idemp_l. rewrite mod_sub_cases by lia.
    destruct (Z.eqb_spec (p mod IntInterval.modulus iv + 1)
                (IntInterval.modulus iv));
      destruct (Z.ltb_spec (p mod IntInterval.modulus iv)
                  (IntInterval.start iv));
      match type of Hall with
      | context [?u <? ?v] => destruct (Z.ltb_spec u v)
      end; lia.
Qed.

Lemma ExpandEnd_keeps_start_witness :
  let iv := IntInterval.mk 7 0 1 in
  IntInterval.wf iv /\
  IntInterval.modulus iv + IntInterval.modulus iv <= GoInt.int_max /\
  (forall p, In p [5] -> GoInt.in_range (p + 1)) /\
  exists r,
    IntInterval.ExpandEnd iv [5] = Ok r /\
    IntInterval.wf r /\
    IntInterval.Modulus r = IntInterval.Modulus iv /\
    IntInterval.Start r = IntInterval.Start iv /\
    (IntInterval.IsComplete iv = false -> IntInterval.IsComplete r = false) /\
    (forall p, In p [5] ->
               (p + 1) mod IntInterval.Modulus iv <> IntInterval.Start iv ->
               IntInterval.Contains r p = Ok true).
Proof.
  cbv zeta.
  assert (H : IntInterval.wf (IntInterval.mk 7 0 1)).
  { unfold IntInterval.wf, GoInt.int_max; cbn; lia. }
  assert (H1 : IntInterval.modulus (IntInterval.mk 7 0 1) +
               IntInterval.modulus (IntInterval.mk 7 0 1)
               <= GoInt.int_max) by (unfold GoInt.int_max; cbn; lia).
  assert (H2 : forall p, In p [5] -> GoInt.in_range (p + 1)).
  { intros p [<- | []]. unfold GoInt.in_range, GoInt.int_min, GoInt.int_max.
    cbn. lia. }
  split; [exact H | split; [exact H1 | split; [exact H2 |]]].
  exact (ExpandEnd_keeps_start _ [5] H H1 H2).
Defined.

(** X17: away from overflow, on an interval that stays below the modulus
    (start + size < m) [ExpandEnd] only adds integers. *)
Theorem ExpandEnd_superset_below_modulus (iv : IntInterval.t) (ps : list Z) :
  IntInterval.wf iv ->
  IntInterval.modulus iv + IntInterval.modulus iv <= GoInt.int_max ->
  (forall p, In p ps -> GoInt.in_range (p + 1)) ->
  IntInterval.start iv + IntInterval.size iv < IntInterval.modulus iv ->
  exists r,
    IntInterval.ExpandEnd iv ps = Ok r /\
    forall i, IntInterval.ContainsExactInt iv i = true ->
              IntInterval.ContainsExactInt r i = true.
Proof.
  intros Hwf H2m Hps Hfit. pose proof Hwf as (Hm & Hs & Hz).
  destruct ps as [| p0 rest].
  { exists iv. unfold IntInterval.ExpandEnd. cbn [length Z.of_nat Z.eqb].
    rewrite orb_true_r. split; [reflexivity | auto]. }
  assert (He : IntInterval.End iv =
               Ok (IntInterval.start iv + IntInterval.size iv)).
  { unfold IntInterval.End. rewrite add_small by range_lia.
    rewrite ArrayOffset_mod by lia. f_equal. apply Z.mod_small. lia. }
  destruct (ExpandEnd_shape iv Hwf H2m _ (p0 :: rest) Hps He ltac:(lia)
              ltac:(discriminate)) as (r & _ & E & Hb & Hle).
  eexists. split; [exact E |].
  assert (Hwf' : IntInterval.wf
            (IntInterval.mk (IntInterval.modulus iv) (IntInterval.start iv)
               (r - IntInterval.start iv))).
  { unfold IntInterval.wf.
    cbn [IntInterval.modulus IntInterval.start IntInterval.size]. lia. }
  intros i Hi. apply ContainsExactInt_iff in Hi; [| assumption].
  apply ContainsExactInt_iff; [exact Hwf' |].
  cbn [IntInterval.modulus IntInterval.start IntInterval.size]. lia.
Qed.

Lemma ExpandEnd_superset_below_modulus_witness :
  let iv := IntInterval.mk 7 0 1 in
  IntInterval.wf iv /\
  exists r,
    IntInterval.ExpandEnd iv [5] = Ok r /\
    forall i, IntInterval.ContainsExactInt iv i = true ->
              IntInterval.ContainsExactInt r i = true.
Proof.
  cbv zeta.
  assert (H : IntInterval.wf (IntInterval.mk 7 0 1)).
  { unfold IntInterval.wf, GoInt.int_max; cbn; lia. }
  assert (H1 : IntInterval.modulus (IntInterval.mk 7 0 1) +
               IntInterval.modulus (IntInterval.mk 7 0 1)
               <= GoInt.int_max) by (unfold GoInt.int_max; cbn; lia).
  assert (H2 : forall p, In p [5] -> GoInt.in_range (p + 1)).
  { intros p [<- | []]. unfold GoInt.in_range, GoInt.int_min, GoInt.int_max.
    cbn. lia. }
  assert (H3 : IntInterval.start (IntInterval.mk 7 0 1) +
               IntInterval.size (IntInterval.mk 7 0 1) <
               IntInterval.modulus (IntInterval.mk 7 0 1)) by (cbn; lia).
  split; [exact H |].
  exact (ExpandEnd_superset_below_modulus _ [5] H H1 H2 H3).
Defined.

(** X18: [ExpandEnd] can also remove integers.  When twice the modulus
    fits an [int], on an incomplete interval that reaches the modulus or
    wraps past it, expanding by the interval's own start collapses it to
    the single position of its start. *)
Theorem ExpandEnd_collapses_wrapping (iv : IntInterval.t) :
  IntInterval.wf iv ->
  IntInterval.modulus iv + IntInterval.modulus iv <= GoInt.int_max ->
  IntInterval.size iv < IntInterval.modulus iv ->
  IntInterval.modulus iv <= IntInterval.start iv + IntInterval.size iv ->
  IntInterval.Contains iv (IntInterval.Start iv) = Ok true /\
  IntInterval.ExpandEnd iv [IntInterval.Start iv] =
  Ok (IntInterval.mk (IntInterval.Modulus iv) (IntInterval.Start iv) 1).
Proof.
  intros Hwf H2m Hinc Hwrap. pose proof Hwf as (Hm & Hs & Hz).
  unfold IntInterval.Start, IntInterval.Modulus.
  set (m := IntInterval.modulus iv) in *.
  set (s := IntInterval.start iv) in *.
  split.
  { rewrite Contains_offset by assumption. fold s m. f_equal.
    apply Z.ltb_lt. rewrite Z.sub_diag, Z.mod_0_l; lia. }
  assert (He : IntInterval.End iv = Ok (s + IntInterval.size iv - m)).
  { unfold IntInterval.End. fold s. rewrite add_small by range_lia.
    rewrite ArrayOffset_mod by (fold m; lia). fold m. f_equal.
    rewrite mod_add_cases by lia.
    destruct (Z.ltb_spec (s + IntInterval.size iv) m); lia. }
  assert (Hps : forall p, In p [s] -> GoInt.in_range (p + 1)).
  { intros p [<- | []]. range_lia. }
  destruct (ExpandEnd_shape iv Hwf H2m _ [s] Hps He ltac:(fold m; lia)
              ltac:(discriminate)) as (r & Er & E & _).
  rewrite E. fold m s. do 2 f_equal.
  rewrite Er. cbn [fold_left]. unfold IntInterval.endTarget. fold m s.
  rewrite (mod_add_cases m s 1) by lia.
  destruct (Z.ltb_spec (s + 1) m);
    match goal with
    | |- context [?u <? ?v] => destruct (Z.ltb_spec u v)
    end; lia.
Qed.

Lemma ExpandEnd_collapses_wrapping_witness :
  let iv := IntInterval.mk 10 9 5 in
  IntInterval.wf iv /\
  IntInterval.ExpandEnd iv [9] = Ok (IntInterval.mk 10 9 1).
Proof.
  cbv zeta.
  assert (H : IntInterval.wf (IntInterval.mk 10 9 5)).
  { unfold IntInterval.wf, GoInt.int_max; cbn; lia. }
  assert (H1 : IntInterval.modulus (IntInterval.mk 10 9 5) +
               IntInterval.modulus (IntInterval.mk 10 9 5)
               <= GoInt.int_max) by (unfold GoInt.int_max; cbn; lia).
  assert (H2 : IntInterval.size (IntInterval.mk 10 9 5) <
               IntInterval.modulus (IntInterval.mk 10 9 5)) by (cbn; lia).
  assert (H3 : IntInterval.modulus (IntInterval.mk 10 9 5) <=
               IntInterval.start (IntInterval.mk 10 9 5) +
               IntInterval.size (IntInterval.mk 10 9 5)) by (cbn; lia).
  split; [exact H |].
  exact (proj2 (ExpandEnd_collapses_wrapping _ H H1 H2 H3)).
Defined.

(** X19: away from overflow, when no designator normalizes to the position
    just before the start, [ExpandMinimal] returns a well-formed interval
    that contains every designator. *)
Theorem ExpandMinimal_covers (iv : IntInterval.t) (ps : list Z) :
  IntInterval.wf iv ->
  IntInterval.modulus iv + IntInterval.modulus iv <= GoInt.int_max ->
  (forall p, In p ps -> GoInt.in_range (p + 1)) ->
  (forall p, In p ps ->
             (p + 1) mod IntInterval.modulus iv <> IntInterval.start iv) ->
  exists r,
    IntInterval.ExpandMinimal iv ps = Ok r /\
    IntInterval.wf r /\
    forall p, In p ps -> IntInterval.Contains r p = Ok true.
Proof.
  intros Hwf H2m Hps Hnot. unfold IntInterval.ExpandMinimal.
  destruct ps as [| p0 rest].
  - exists iv. unfold IntInterval.ExpandStart, IntInterval.ExpandEnd.
    cbn [length Z.of_nat Z.eqb]. rewrite orb_true_r. cbn [bind].
    rewrite Z.gtb_ltb, Z.ltb_irrefl.
    split; [reflexivity |]. split; [assumption | intros p []].
  - destruct (ExpandStart_contains iv Hwf (p0 :: rest) ltac:(discriminate))
      as (a & -> & Ha & Hca).
    destruct (ExpandEnd_contains_unless_before_start iv Hwf (p0 :: rest)
                H2m Hps ltac:(discriminate)) as (b & -> & Hb & Hcb).
    cbn [bind]. destruct (IntInterval.Size a >? IntInterval.Size b).
    + exists b. split; [reflexivity |]. split; [assumption |].
      intros p Hp. apply Hcb; [exact Hp | exact (Hnot p Hp)].
    + exists a. split; [reflexivity |]. split; assumption.
Qed.

Lemma ExpandMinimal_covers_witness :
  let iv := IntInterval.mk 10 3 2 in
  IntInterval.wf iv /\
  exists r,
    IntInterval.ExpandMinimal iv [6; 1] = Ok r /\
    IntInterval.wf r /\
    forall p, In p [6; 1] -> IntInterval.Contains r p = Ok true.
Proof.
  cbv zeta.
  assert (H : IntInterval.wf (IntInterval.mk 10 3 2)).
  { unfold IntInterval.wf, GoInt.int_max; cbn; lia. }
  assert (H1 : IntInterval.modulus (IntInterval.mk 10 3 2) +
               IntInterval.modulus (IntInterval.mk 10 3 2)
               <= GoInt.int_max) by (unfold GoInt.int_max; cbn; lia).
  assert (H2 : forall p, In p [6; 1] -> GoInt.in_range (p + 1)).
  { intros p [<- | [<- | []]];
      unfold GoInt.in_range, GoInt.int_min, GoInt.int_max; cbn; lia. }
  assert (H3 : forall p, In p [6; 1] ->
                 (p + 1) mod IntInterval.modulus (IntInterval.mk 10 3 2)
                 <> IntInterval.start (IntInterval.mk 10 3 2)).
  { intros p [<- | [<- | []]]; cbn; lia. }
  split; [exact H |].
  exact (ExpandMinimal_covers _ [6; 1] H H1 H2 H3).
Defined.

(** ** IntInterval.fromNonemptyStartEnd *)

(** X20: when twice the modulus fits an [int], [fromNonemptyStartEnd]
    returns a well-formed, non-empty interval that starts at the offset of
    [start] and ends at the offset of [end]; it is complete exactly when the
    two offsets coincide, and otherwise its size is the forward size from
    [start] to [end]. *)
Theorem fromNonemptyStartEnd_spec (m start end_ : Z) :
  0 < m -> m + m <= GoInt.int_max ->
  exists iv,
    IntInterval.fromNonemptyStartEnd m start end_ = Ok iv /\
    IntInterval.wf iv /\
    IntInterval.Modulus iv = m /\
    Modulus.ArrayOffset m start = Ok (IntInterval.Start iv) /\
    IntInterval.End iv = Modulus.ArrayOffset m end_ /\
    0 < IntInterval.Size iv /\
    (IntInterval.IsComplete iv = true <->
     Modulus.ArrayOffset m start = Modulus.ArrayOffset m end_) /\
    (Modulus.ArrayOffset m start <> Modulus.ArrayOffset m end_ ->
     Modulus.IntervalSizeForward m start end_ = Ok (IntInterval.Size iv)).
Proof.
  intros Hpos H2m.
  assert (Hint : m <= GoInt.int_max) by lia.
  pose proof (Z.mod_pos_bound start m Hpos) as Hs.
  pose proof (Z.mod_pos_bound end_ m Hpos) as He.
  unfold IntInterval.fromNonemptyStartEnd.
  rewrite !(ArrayOffset_mod m Hpos Hint). cbn [bind].
  rewrite IntervalSizeForward_formula by assumption.
  set (s := start mod m) in *. set (e := end_ mod m) in *.
  assert (Hshape : forall z, 0 < z <= m -> (s + z) mod m = e ->
            (z = m <-> s = e) ->
            (s <> e -> z = if e <? s then e - s + m else e - s) ->
            exists iv,
              IntInterval.FromStartSizeInt m s z = Ok iv /\
              IntInterval.wf iv /\
              IntInterval.Modulus iv = m /\
              Ok s = Ok (IntInterval.Start iv) /\
              IntInterval.End iv = Ok e /\
              0 < IntInterval.Size iv /\
              (IntInterval.IsComplete iv = true <-> Ok s = Ok e :> result Z) /\
              (Ok s <> Ok e :> result Z ->
               Ok (if e <? s then e - s + m else e - s) =
               Ok (IntInterval.Size iv))).
  { intros z Hz Hend Hcomp Hsize.
    exists (IntInterval.mk m s z).
    assert (Hwf : IntInterval.wf (IntInterval.mk m s z)).
    { unfold IntInterval.wf.
      cbn [IntInterval.modulus IntInterval.start IntInterval.size]. lia. }
    split.
    { rewrite FromStartSizeInt_ok by lia.
      rewrite Z.min_l by lia. unfold s. rewrite Zmod_mod. reflexivity. }
    split; [exact Hwf |]. split; [reflexivity |]. split; [reflexivity |].
    split.
    { unfold IntInterval.End.
      cbn [IntInterval.modulus IntInterval.start IntInterval.size].
      rewrite add_small by range_lia.
      rewrite ArrayOffset_mod by assumption. f_equal. exact Hend. }
    split; [cbn; lia |]. split.
    { unfold IntInterval.IsComplete, IntInterval.Size.
      cbn [IntInterval.modulus IntInterval.size]. rewrite Z.eqb_eq.
      rewrite Hcomp. split; [intros -> | intros [= ->]]; reflexivity. }
    intros Hne. f_equal. unfold IntInterval.Size. cbn [IntInterval.size].
    symmetry. apply Hsize. congruence. }
  destruct (Z.eqb_spec s e) as [Heq | Hne].
  - apply (Hshape m); [lia | | tauto | congruence].
    rewrite <- Heq. rewrite mod_add_cases by lia.
    destruct (Z.ltb_spec (s + m) m); lia.
  - rewrite (sub_small e s) by range_lia. rewrite Z.gtb_ltb.
    destruct (Z.ltb_spec 0 (e - s)).
    + apply (Hshape (e - s)); [lia | | lia |].
      * replace (s + (e - s)) with e by lia. apply Z.mod_small. lia.
      * intros _. destruct (Z.ltb_spec e s); lia.
    + rewrite sub_small by range_lia. rewrite add_small by range_lia.
      apply (Hshape (m - s + e)); [lia | | lia |].
      * replace (s + (m - s + e)) with (e + 1 * m) by lia.
        rewrite Z_mod_plus_full. apply Z.mod_small. lia.
      * intros _. destruct (Z.ltb_spec e s); lia.
Qed.

Lemma fromNonemptyStartEnd_spec_witness :
  0 < 10 /\ 10 + 10 <= GoInt.int_max /\
  exists iv,
    IntInterval.fromNonemptyStartEnd 10 9 3 = Ok iv /\
    IntInterval.wf iv /\
    IntInterval.Modulus iv = 10 /\
    Modulus.ArrayOffset 10 9 = Ok (IntInterval.Start iv) /\
    IntInterval.End iv = Modulus.ArrayOffset 10 3 /\
    0 < IntInterval.Size iv /\
    (IntInterval.IsComplete iv = true <->
     Modulus.ArrayOffset 10 9 = Modulus.ArrayOffset 10 3) /\
    (Modulus.ArrayOffset 10 9 <> Modulus.ArrayOffset 10 3 ->
     Modulus.IntervalSizeForward 10 9 3 = Ok (IntInterval.Size iv)).
Proof.
  assert (H : 0 < 10) by lia.
  assert (H1 : 10 + 10 <= GoInt.int_max) by (unfold GoInt.int_max; cbn; lia).
  split; [exact H | split; [exact H1 |]].
  exact (fromNonemptyStartEnd_spec 10 9 3 H H1).
Defined.

(** ** RealIntInterval: Expand, ContainsInterval, Add *)

Section RealFacts.
Import RealIntInterval.

Lemma small_bounds (z : Z) :
  GoInt.small z <-> -2305843009213693952 <= z <= 2305843009213693952.
Proof. unfold GoInt.small. change (2 ^ 61) with 2305843009213693952. lia. Qed.

Lemma Expand_loop_props (value : list Z) :
  forall lo hi,
    let r := Expand_loop value lo hi in
    fst r <= lo /\ hi <= snd r /\
    (forall v, In v value -> fst r <= v <= snd r) /\
    (fst r = lo \/ In (fst r) value) /\
    (snd r = hi \/ In (snd r) value).
Proof.
  induction value as [| v rest IH]; intros lo hi; cbn [Expand_loop].
  - cbn. repeat split; try lia; try (intros v []); left; reflexivity.
  - cbv zeta.
    destruct (IH (if v <? lo then v else lo) (if v >? hi then v else hi))
      as (H1 & H2 & H3 & H4 & H5).
    rewrite Z.gtb_ltb in *.
    split; [destruct (Z.ltb_spec v lo); lia |].
    split; [destruct (Z.ltb_spec hi v); lia |].
    split; [| split].
    + intros w [<- | Hw]; [| exact (H3 w Hw)].
      destruct (Z.ltb_spec v lo), (Z.ltb_spec hi v); lia.
    + destruct H4 as [H4 | H4]; [| right; right; exact H4].
      destruct (Z.ltb_spec v lo); [right; left; congruence | left; exact H4].
    + destruct H5 as [H5 | H5]; [| right; right; exact H5].
      destruct (Z.ltb_spec hi v); [right; left; congruence | left; exact H5].
Qed.

(** The interval [Expand] builds from the bounds [lo] and [hi] it found. *)
Lemma Expand_result (lo hi i : Z) :
  GoInt.small lo -> hi <= 2 ^ 61 + 1 -> lo <= hi ->
  Start (mk lo (GoInt.add (GoInt.sub hi lo) 1)) = lo /\
  End (mk lo (GoInt.add (GoInt.sub hi lo) 1)) = hi + 1 /\
  (Contains (mk lo (GoInt.add (GoInt.sub hi lo) 1)) i = true <->
   lo <= i <= hi).
Proof.
  intros Hlo Hhi Hle. pose proof (proj1 (small_bounds _) Hlo) as Hlo'.
  change (2 ^ 61) with 2305843009213693952 in Hhi.
  unfold Contains, Start, End. cbn [start size].
  rewrite (sub_small hi lo) by range_lia.
  rewrite (add_small (hi - lo) 1) by range_lia.
  rewrite add_small by range_lia.
  split; [reflexivity |]. split; [lia |].
  rewrite andb_true_iff, Z.leb_le, Z.ltb_lt. lia.
Qed.

Lemma wrap_add_assoc (s a b : Z) :
  GoInt.add (GoInt.add s a) b = GoInt.add s (GoInt.add a b).
Proof.
  unfold GoInt.add. apply wrap_mod_eq.
  rewrite <- (Zplus_mod_idemp_l (GoInt.wrap (s + a))), wrap_mod.
  rewrite <- (Zplus_mod_idemp_r (GoInt.wrap (a + b))), wrap_mod.
  rewrite Zplus_mod_idemp_l, Zplus_mod_idemp_r. f_equal. lia.
Qed.

End RealFacts.

(** X21: away from overflow, the interval [Expand] returns contains every
    given value and every integer of the interval it started from. *)
Theorem Expand_covers (r : RealIntInterval.t) (value : list Z) :
  GoInt.small (RealIntInterval.start r) ->
  0 <= RealIntInterval.size r ->
  GoInt.small (RealIntInterval.start r + RealIntInterval.size r) ->
  (forall v, In v value -> GoInt.small v) ->
  (forall v, In v value ->
             RealIntInterval.Contains (RealIntInterval.Expand r value) v
             = true) /\
  (forall i, RealIntInterval.Contains r i = true ->
             RealIntInterval.Contains (RealIntInterval.Expand r value) i
             = true).
Proof.
  intros Hs Hz He Hv.
  destruct value as [| v0 rest]; [split; [intros v [] | auto] |].
  unfold RealIntInterval.Expand.
  pose proof (proj1 (small_bounds _) Hs) as Hs'.
  pose proof (proj1 (small_bounds _) He) as He'.
  pose proof (proj1 (small_bounds _) (Hv v0 (or_introl eq_refl))) as Hv0.
  set (init := if negb (RealIntInterval.IsEmpty r)
               then (RealIntInterval.Start r,
                     GoInt.add (RealIntInterval.End r) 1)
               else (v0, v0)).
  assert (Hinit : -2305843009213693952 <= fst init <= 2305843009213693952 /\
                  snd init <= 2305843009213693953 /\
                  fst init <= snd init /\
                  (RealIntInterval.IsEmpty r = false ->
                   fst init = RealIntInterval.start r /\
                   snd init = RealIntInterval.start r
                              + RealIntInterval.size r + 1)).
  { subst init. unfold RealIntInterval.End, RealIntInterval.Start.
    destruct (RealIntInterval.IsEmpty r); cbn [negb fst snd].
    - repeat split; try lia; try discriminate.
    - rewrite (add_small (RealIntInterval.start r)) by range_lia.
      rewrite add_small by range_lia. repeat split; lia. }
  destruct init as [lo hi]. cbn [fst snd] in Hinit.
  destruct Hinit as (Hlo & Hhi & Hlh & Hne).
  destruct (Expand_loop_props (v0 :: rest) lo hi) as (H1 & H2 & H3 & H4 & H5).
  destruct (RealIntInterval.Expand_loop (v0 :: rest) lo hi) as [a b].
  cbn [fst snd] in *.
  assert (Ha : GoInt.small a).
  { apply small_bounds. destruct H4 as [-> | H4]; [lia |].
    apply small_bounds, Hv, H4. }
  assert (Hb : b <= 2 ^ 61 + 1).
  { change (2 ^ 61) with 2305843009213693952.
    destruct H5 as [-> | H5]; [lia |].
    pose proof (proj1 (small_bounds _) (Hv b H5)). lia. }
  split.
  - intros v Hin. apply Expand_result; [assumption .. | lia |].
    exact (H3 v Hin).
  - intros i Hi. apply Expand_result; [assumption .. | lia |].
    destruct (RealIntInterval.IsEmpty r) eqn:Em.
    + unfold RealIntInterval.IsEmpty, RealIntInterval.Size in Em.
      apply Z.eqb_eq in Em. destruct r as [s z]. cbn in Em. subst z.
      apply Real_Contains_iff in Hi; [lia |].
      cbn [RealIntInterval.start RealIntInterval.size] in *. range_lia.
    + destruct (Hne eq_refl) as [-> ->].
      destruct r as [s z].
      cbn [RealIntInterval.start RealIntInterval.size] in *.
      apply Real_Contains_iff in Hi; [lia | range_lia].
Qed.

Lemma Expand_covers_witness :
  RealIntInterval.Contains
    (RealIntInterval.Expand (RealIntInterval.mk 3 3) [9; -2]) 9 = true.
Proof.
  assert (H1 : GoInt.small (RealIntInterval.start (RealIntInterval.mk 3 3)))
    by (unfold GoInt.small; cbn; lia).
  assert (H2 : 0 <= RealIntInterval.size (RealIntInterval.mk 3 3))
    by (cbn; lia).
  assert (H3 : GoInt.small (RealIntInterval.start (RealIntInterval.mk 3 3) +
                            RealIntInterval.size (RealIntInterval.mk 3 3)))
    by (unfold GoInt.small; cbn; lia).
  assert (H4 : forall v, In v [9; -2] -> GoInt.small v).
  { intros v [<- | [<- | []]]; unfold GoInt.small; cbn; lia. }
  exact (proj1 (Expand_covers _ [9; -2] H1 H2 H3 H4) 9 (or_introl eq_refl)).
Defined.

(** X22: away from overflow (every value within 2^61 of zero), expanding
    an empty interval by at least one value gives the smallest interval
    that contains the values: it starts at one of them, ends just past one
    of them and contains them all. *)
Theorem Expand_of_empty_is_tight (r : RealIntInterval.t) (value : list Z) :
  RealIntInterval.IsEmpty r = true -> value <> [] ->
  (forall v, In v value -> GoInt.small v) ->
  let r' := RealIntInterval.Expand r value in
  In (RealIntInterval.Start r') value /\
  In (RealIntInterval.End r' - 1) value /\
  (forall v, In v value ->
             RealIntInterval.Start r' <= v < RealIntInterval.End r').
Proof.
  intros Hempty Hne Hv r'. subst r'.
  destruct value as [| v0 rest]; [contradiction |].
  unfold RealIntInterval.Expand. rewrite Hempty. cbn [negb].
  destruct (Expand_loop_props (v0 :: rest) v0 v0) as (H1 & H2 & H3 & H4 & H5).
  destruct (RealIntInterval.Expand_loop (v0 :: rest) v0 v0) as [a b].
  cbn [fst snd] in *.
  assert (Hina : In a (v0 :: rest))
    by (destruct H4 as [-> | H4]; [left; reflexivity | exact H4]).
  assert (Hinb : In b (v0 :: rest))
    by (destruct H5 as [-> | H5]; [left; reflexivity | exact H5]).
  pose proof (proj1 (small_bounds _) (Hv b Hinb)) as Hb.
  destruct (Expand_result a b 0 (Hv a Hina)) as (Es & Ee & _);
    [change (2 ^ 61) with 2305843009213693952; lia | lia |].
  rewrite Es, Ee. split; [exact Hina |]. split.
  - replace (b + 1 - 1) with b by lia. exact Hinb.
  - intros v Hin. pose proof (H3 v Hin). lia.
Qed.

Lemma Expand_of_empty_is_tight_witness :
  let r' := RealIntInterval.Expand RealIntInterval.RealEmpty [3; 5] in
  In (RealIntInterval.Start r') [3; 5] /\
  In (RealIntInterval.End r' - 1) [3; 5] /\
  (forall v, In v [3; 5] ->
             RealIntInterval.Start r' <= v < RealIntInterval.End r').
Proof.
  assert (H1 : RealIntInterval.IsEmpty RealIntInterval.RealEmpty = true)
    by reflexivity.
  assert (H2 : [3; 5] <> []) by discriminate.
  assert (H3 : forall v, In v [3; 5] -> GoInt.small v).
  { intros v [<- | [<- | []]]; unfold GoInt.small; cbn; lia. }
  exact (Expand_of_empty_is_tight _ [3; 5] H1 H2 H3).
Defined.

(** X23: away from overflow (the values, the start and the end of the
    interval within 2^61 of zero), expanding an interval of positive size
    by at least one value does not return it unchanged: the result ends at
    least two past the end of the interval it started from, and does not
    start later. *)
Theorem Expand_of_nonempty_overshoots (r : RealIntInterval.t)
    (value : list Z) :
  GoInt.small (RealIntInterval.start r) ->
  0 < RealIntInterval.size r ->
  GoInt.small (RealIntInterval.start r + RealIntInterval.size r) ->
  (forall v, In v value -> GoInt.small v) ->
  value <> [] ->
  let r' := RealIntInterval.Expand r value in
  RealIntInterval.Start r' <= RealIntInterval.Start r /\
  RealIntInterval.End r + 2 <= RealIntInterval.End r'.
Proof.
  intros Hs Hz He Hv Hne r'. subst r'.
  destruct value as [| v0 rest]; [contradiction |].
  unfold RealIntInterval.Expand.
  pose proof (proj1 (small_bounds _) Hs) as Hs'.
  pose proof (proj1 (small_bounds _) He) as He'.
  assert (Em : RealIntInterval.IsEmpty r = false).
  { unfold RealIntInterval.IsEmpty, RealIntInterval.Size.
    apply Z.eqb_neq. lia. }
  rewrite Em. cbn [negb].
  assert (Hinit : GoInt.add (RealIntInterval.End r) 1 =
                  RealIntInterval.start r + RealIntInterval.size r + 1).
  { unfold RealIntInterval.End.
    rewrite (add_small (RealIntInterval.start r)) by range_lia.
    rewrite add_small by range_lia. reflexivity. }
  rewrite Hinit.
  change (RealIntInterval.Start r) with (RealIntInterval.start r).
  destruct (Expand_loop_props (v0 :: rest) (RealIntInterval.start r)
              (RealIntInterval.start r + RealIntInterval.size r + 1))
    as (H1 & H2 & H3 & H4 & H5).
  destruct (RealIntInterval.Expand_loop (v0 :: rest) (RealIntInterval.start r)
              (RealIntInterval.start r + RealIntInterval.size r + 1))
    as [a b].
  cbn [fst snd] in *.
  assert (Ha : GoInt.small a).
  { apply small_bounds. destruct H4 as [-> | H4]; [lia |].
    apply small_bounds, Hv, H4. }
  assert (Hb : b <= 2 ^ 61 + 1).
  { change (2 ^ 61) with 2305843009213693952.
    destruct H5 as [-> | H5]; [lia |].
    pose proof (proj1 (small_bounds _) (Hv b H5)). lia. }
  destruct (Expand_result a b 0 Ha Hb ltac:(lia)) as (Es & Ee & _).
  rewrite Es, Ee.
  unfold RealIntInterval.Start, RealIntInterval.End.
  rewrite add_small by range_lia. lia.
Qed.

Lemma Expand_of_nonempty_overshoots_witness :
  let r := RealIntInterval.mk 3 3 in
  let r' := RealIntInterval.Expand r [4] in
  RealIntInterval.Start r' <= RealIntInterval.Start r /\
  RealIntInterval.End r + 2 <= RealIntInterval.End r'.
Proof.
  assert (H1 : GoInt.small (RealIntInterval.start (RealIntInterval.mk 3 3)))
    by (unfold GoInt.small; cbn; lia).
  assert (H2 : 0 < RealIntInterval.size (RealIntInterval.mk 3 3))
    by (cbn; lia).
  assert (H3 : GoInt.small (RealIntInterval.start (RealIntInterval.mk 3 3) +
                            RealIntInterval.size (RealIntInterval.mk 3 3)))
    by (unfold GoInt.small; cbn; lia).
  assert (H4 : forall v, In v [4] -> GoInt.small v).
  { intros v [<- | []]; unfold GoInt.small; cbn; lia. }
  assert (H5 : [4] <> []) by discriminate.
  exact (Expand_of_nonempty_overshoots _ [4] H1 H2 H3 H4 H5).
Defined.

(** X24: away from overflow and for an argument whose size is not negative,
    [ContainsInterval] is true exactly when every integer of the argument
    is an integer of the receiver; in particular an empty argument is
    contained in every interval. *)
Theorem ContainsInterval_iff (r other : RealIntInterval.t) :
  GoInt.in_range (RealIntInterval.start r + RealIntInterval.size r) ->
  GoInt.in_range (RealIntInterval.start other + RealIntInterval.size other) ->
  0 <= RealIntInterval.size other ->
  (RealIntInterval.ContainsInterval r other = true <->
   forall i, RealIntInterval.Contains other i = true ->
             RealIntInterval.Contains r i = true).
Proof.
  intros Hr Ho Hz. destruct r as [s z], other as [s' z'].
  cbn [RealIntInterval.start RealIntInterval.size] in *.
  unfold RealIntInterval.ContainsInterval, RealIntInterval.IsEmpty,
    RealIntInterval.Size, RealIntInterval.Start, RealIntInterval.End.
  cbn [RealIntInterval.start RealIntInterval.size].
  rewrite !add_small by assumption.
  rewrite orb_true_iff, andb_true_iff, Z.eqb_eq, Z.leb_le, Z.geb_le.
  assert (Hc : forall a b i,
            GoInt.in_range (a + b) ->
            RealIntInterval.Contains (RealIntInterval.mk a b) i = true <->
            a <= i < a + b) by (intros; apply Real_Contains_iff; assumption).
  split.
  - intros H i Hi. apply Hc in Hi; [| assumption]. apply Hc; [assumption |].
    lia.
  - intros H. destruct (Z.eq_dec z' 0) as [E | E]; [left; exact E | right].
    pose proof (proj1 (Hc s z s' Hr) (H s' (proj2 (Hc s' z' s' Ho)
                  ltac:(lia)))) as H1.
    pose proof (proj1 (Hc s z (s' + z' - 1) Hr)
                  (H (s' + z' - 1) (proj2 (Hc s' z' (s' + z' - 1) Ho)
                  ltac:(lia)))) as H2.
    lia.
Qed.

Lemma ContainsInterval_iff_witness :
  RealIntInterval.ContainsInterval (RealIntInterval.mk 3 3)
    (RealIntInterval.mk 4 2) = true.
Proof.
  assert (H1 : GoInt.in_range
                 (RealIntInterval.start (RealIntInterval.mk 3 3) +
                  RealIntInterval.size (RealIntInterval.mk 3 3))).
  { unfold GoInt.in_range, GoInt.int_min, GoInt.int_max; cbn; lia. }
  assert (H2 : GoInt.in_range
                 (RealIntInterval.start (RealIntInterval.mk 4 2) +
                  RealIntInterval.size (RealIntInterval.mk 4 2))).
  { unfold GoInt.in_range, GoInt.int_min, GoInt.int_max; cbn; lia. }
  assert (H3 : 0 <= RealIntInterval.size (RealIntInterval.mk 4 2))
    by (cbn; lia).
  apply (proj2 (ContainsInterval_iff _ _ H1 H2 H3)).
  intros i Hi.
  apply andb_true_iff in Hi. destruct Hi as [Ha Hb].
  apply Z.leb_le in Ha. apply Z.ltb_lt in Hb.
  apply andb_true_iff. split; [apply Z.leb_le | apply Z.ltb_lt].
  - change (RealIntInterval.Start (RealIntInterval.mk 3 3)) with 3.
    change (RealIntInterval.Start (RealIntInterval.mk 4 2)) with 4 in Ha.
    lia.
  - change (RealIntInterval.End (RealIntInterval.mk 3 3)) with 6.
    change (RealIntInterval.End (RealIntInterval.mk 4 2)) with 6 in Hb.
    lia.
Defined.

(** X25: [Add] keeps the size, and shifting twice is shifting once by the
    wrapped sum of the offsets, both overflow or not.  Away from overflow
    [Add] shifts the contents: an integer is in the interval exactly when
    the integer moved by the offset is in the shifted interval. *)
Theorem Add_shifts (r : RealIntInterval.t) (offset offset' i : Z) :
  RealIntInterval.Size (RealIntInterval.Add r offset) =
  RealIntInterval.Size r /\
  RealIntInterval.Add (RealIntInterval.Add r offset) offset' =
  RealIntInterval.Add r (GoInt.add offset offset') /\
  (GoInt.in_range (RealIntInterval.start r + RealIntInterval.size r) ->
   GoInt.in_range (RealIntInterval.start r + offset) ->
   GoInt.in_range
     (RealIntInterval.start r + offset + RealIntInterval.size r) ->
   RealIntInterval.Contains (RealIntInterval.Add r offset) (i + offset) =
   RealIntInterval.Contains r i).
Proof.
  destruct r as [s z].
  cbn [RealIntInterval.start RealIntInterval.size] in *.
  unfold RealIntInterval.Add, RealIntInterval.RealFromStartSize,
    RealIntInterval.Contains, RealIntInterval.Start, RealIntInterval.End,
    RealIntInterval.Size.
  cbn [RealIntInterval.start RealIntInterval.size].
  split; [reflexivity |]. split.
  - f_equal. apply wrap_add_assoc.
  - intros H1 H2 H3.
    rewrite (add_small s offset) by assumption.
    rewrite !add_small by assumption.
    apply eq_iff_eq_true.
    rewrite !andb_true_iff, !Z.leb_le, !Z.ltb_lt. lia.
Qed.

Lemma Add_shifts_witness :
  RealIntInterval.Contains
    (RealIntInterval.Add (RealIntInterval.mk 3 3) 10) (4 + 10) =
  RealIntInterval.Contains (RealIntInterval.mk 3 3) 4.
Proof.
  assert (H1 : GoInt.in_range
                 (RealIntInterval.start (RealIntInterval.mk 3 3) +
                  RealIntInterval.size (RealIntInterval.mk 3 3))).
  { unfold GoInt.in_range, GoInt.int_min, GoInt.int_max; cbn; lia. }
  assert (H2 : GoInt.in_range
                 (RealIntInterval.start (RealIntInterval.mk 3 3) + 10)).
  { unfold GoInt.in_range, GoInt.int_min, GoInt.int_max; cbn; lia. }
  assert (H3 : GoInt.in_range
                 (RealIntInterval.start (RealIntInterval.mk 3 3) + 10 +
                  RealIntInterval.size (RealIntInterval.mk 3 3))).
  { unfold GoInt.in_range, GoInt.int_min, GoInt.int_max; cbn; lia. }
  exact (proj2 (proj2 (Add_shifts _ 10 0 4)) H1 H2 H3).
Defined.

(** ** intMinAll and intMaxAll *)

Lemma intMinAll_loop_props (values : list Z) :
  forall best,
    let b := intMinAll_loop values best in
    b <= best /\ (forall v, In v values -> b <= v) /\
    (b = best \/ In b values).
Proof.
  induction values as [| v rest IH]; intros best; cbn [intMinAll_loop].
  - cbv zeta. split; [lia |]. split; [intros v [] | left; reflexivity].
  - cbv zeta. destruct (IH (if v <? best then v else best)) as (H1 & H2 & H3).
    destruct (Z.ltb_spec v best).
    + split; [lia |]. split.
      * intros w [<- | Hw]; [lia | exact (H2 w Hw)].
      * destruct H3 as [H3 | H3]; right; [left; congruence | right; exact H3].
    + split; [lia |]. split.
      * intros w [<- | Hw]; [lia | exact (H2 w Hw)].
      * destruct H3 as [H3 | H3]; [left; exact H3 | right; right; exact H3].
Qed.

Lemma intMaxAll_loop_props (values : list Z) :
  forall best,
    let b := intMaxAll_loop values best in
    best <= b /\ (forall v, In v values -> v <= b) /\
    (b = best \/ In b values).
Proof.
  induction values as [| v rest IH]; intros best; cbn [intMaxAll_loop].
  - cbv zeta. split; [lia |]. split; [intros v [] | left; reflexivity].
  - cbv zeta. destruct (IH (if v >? best then v else best)) as (H1 & H2 & H3).
    rewrite Z.gtb_ltb in *. destruct (Z.ltb_spec best v).
    + split; [lia |]. split.
      * intros w [<- | Hw]; [lia | exact (H2 w Hw)].
      * destruct H3 as [H3 | H3]; right; [left; congruence | right; exact H3].
    + split; [lia |]. split.
      * intros w [<- | Hw]; [lia | exact (H2 w Hw)].
      * destruct H3 as [H3 | H3]; [left; exact H3 | right; right; exact H3].
Qed.

(** X26: [intMinAll] and [intMaxAll] panic exactly on the empty list;
    otherwise [intMinAll] returns an element of the list that no element is
    below, and [intMaxAll] one that no element is above. *)
Theorem intMinAll_intMaxAll_spec (values : list Z) :
  (intMinAll values = None <-> values = []) /\
  (intMaxAll values = None <-> values = []) /\
  (forall b, intMinAll values = Some b ->
             In b values /\ forall v, In v values -> b <= v) /\
  (forall b, intMaxAll values = Some b ->
             In b values /\ forall v, In v values -> v <= b).
Proof.
  destruct values as [| v0 rest].
  - cbn. repeat split; try discriminate; try reflexivity.
  - unfold intMinAll, intMaxAll.
    split; [split; discriminate |]. split; [split; discriminate |].
    split; intros b Hb.
    + assert (Eb : b = intMinAll_loop (v0 :: rest) v0) by congruence.
      destruct (intMinAll_loop_props (v0 :: rest) v0) as (_ & H2 & H3).
      rewrite <- Eb in H2, H3. split; [| exact H2].
      destruct H3 as [H3 | H3]; [left; congruence | exact H3].
    + assert (Eb : b = intMaxAll_loop (v0 :: rest) v0) by congruence.
      destruct (intMaxAll_loop_props (v0 :: rest) v0) as (_ & H2 & H3).
      rewrite <- Eb in H2, H3. split; [| exact H2].
      destruct H3 as [H3 | H3]; [left; congruence | exact H3].
Qed.

Lemma intMinAll_intMaxAll_spec_witness :
  In 2 [5; 2; 9] /\ forall v, In v [5; 2; 9] -> 2 <= v.
Proof.
  exact (proj1 (proj2 (proj2 (intMinAll_intMaxAll_spec [5; 2; 9])))
           2 eq_refl).
Defined.

(** ** span: Intersect, Before, Adjoin, Encompass *)

Section SpanMore.
Import Span.

Lemma imin_spec (a b : Z) : imin a b = Z.min a b.
Proof. unfold imin. destruct (Z.ltb_spec a b); lia. Qed.

Lemma imax_spec (a b : Z) : imax a b = Z.max a b.
Proof. unfold imax. rewrite Z.gtb_ltb. destruct (Z.ltb_spec b a); lia. Qed.

Lemma zero_no_points (x : Z) : ~ mem x zero.
Proof. unfold mem, zero. cbn. lia. Qed.

End SpanMore.

(** X27: [Intersect] is the intersection of the point sets, whatever the
    order of the two spans; the result is either the zero span or a span
    with [min < max], and it is the zero span exactly when the two spans
    share no point. *)
Theorem Intersect_exact (s t : Span.span) :
  (forall x, Span.mem x (Span.Intersect s t) <->
             Span.mem x s /\ Span.mem x t) /\
  Span.Intersect s t = Span.Intersect t s /\
  (Span.Intersect s t = Span.zero \/
   Span.min (Span.Intersect s t) < Span.max (Span.Intersect s t)) /\
  (Span.IsZero (Span.Intersect s t) = true <->
   forall x, ~ (Span.mem x s /\ Span.mem x t)).
Proof.
  split; [exact (Intersect_mem s t) |].
  split; [| split; [| exact (Intersect_IsZero s t)]].
  - unfold Span.Intersect. cbv zeta. cbn [Span.min Span.max].
    rewrite !imin_spec, !imax_spec.
    rewrite (Z.max_comm (Span.min t)), (Z.min_comm (Span.max t)).
    reflexivity.
  - unfold Span.Intersect. cbv zeta. cbn [Span.min Span.max].
    match goal with
    | |- context [?u <? ?v] => destruct (Z.ltb_spec u v)
    end; [right; cbn [Span.min Span.max]; assumption | left; reflexivity].
Qed.

(** X28: a span that is [Before] another has all its points below all
    points of the other and an empty intersection with it; for two spans
    that are not empty the converse holds as well. *)
Theorem Before_spec (s t : Span.span) :
  (Span.Before s t = true ->
   (forall x y, Span.mem x s -> Span.mem y t -> x < y) /\
   Span.Intersect s t = Span.zero) /\
  (Span.min s < Span.max s -> Span.min t < Span.max t ->
   (forall x y, Span.mem x s -> Span.mem y t -> x < y) ->
   Span.Before s t = true).
Proof.
  unfold Span.Before, Span.mem. rewrite Z.leb_le. split.
  - intros H. split; [intros x y Hx Hy; lia |].
    unfold Span.Intersect. cbv zeta. cbn [Span.min Span.max].
    rewrite imin_spec, imax_spec.
    destruct (Z.ltb_spec (Z.max (Span.min s) (Span.min t))
                (Z.min (Span.max s) (Span.max t))); [lia | reflexivity].
  - intros Hs Ht H.
    specialize (H (Span.max s - 1) (Span.min t) ltac:(lia) ltac:(lia)). lia.
Qed.

Lemma Before_spec_witness :
  Span.Intersect (Span.mk 20 40) (Span.mk 60 111) = Span.zero.
Proof.
  exact (proj2 (proj1 (Before_spec (Span.mk 20 40) (Span.mk 60 111))
                  eq_refl)).
Defined.

(** X29: for valid spans, [Adjoin] of two spans that touch end to start, in
    either order, holds exactly the points of the two; when they do not
    touch it is the zero span. *)
Theorem Adjoin_spec (s t : Span.span) :
  Span.valid s -> Span.valid t ->
  (Span.max s = Span.min t \/ Span.max t = Span.min s ->
   forall x, Span.mem x (Span.Adjoin s t) <-> Span.mem x s \/ Span.mem x t) /\
  (Span.max s <> Span.min t -> Span.max t <> Span.min s ->
   Span.Adjoin s t = Span.zero).
Proof.
  unfold Span.valid, Span.Adjoin, Span.mem. intros Hs Ht. split.
  - intros Htouch x.
    destruct (Z.eqb_spec (Span.max s) (Span.min t));
      [cbn [Span.min Span.max]; lia |].
    destruct (Z.eqb_spec (Span.max t) (Span.min s));
      [cbn [Span.min Span.max]; lia | lia].
  - intros H1 H2.
    destruct (Z.eqb_spec (Span.max s) (Span.min t)); [contradiction |].
    destruct (Z.eqb_spec (Span.max t) (Span.min s)); [contradiction |].
    reflexivity.
Qed.

Lemma Adjoin_spec_witness :
  Span.valid (Span.mk 20 40) /\ Span.valid (Span.mk 40 60) /\
  Span.mem 45 (Span.Adjoin (Span.mk 20 40) (Span.mk 40 60)).
Proof.
  assert (Hs : Span.valid (Span.mk 20 40)) by (unfold Span.valid; cbn; lia).
  assert (Ht : Span.valid (Span.mk 40 60)) by (unfold Span.valid; cbn; lia).
  split; [exact Hs | split; [exact Ht |]].
  apply (proj1 (Adjoin_spec _ _ Hs Ht) (or_introl eq_refl)).
  right. unfold Span.mem; cbn; lia.
Defined.

(** X30: [Encompass] does not depend on the order of the two spans and
    contains every point of either; for two spans that are not empty it is
    the smallest such span: every span that contains both contains it. *)
Theorem Encompass_spec (s t : Span.span) :
  Span.Encompass s t = Span.Encompass t s /\
  (forall x, Span.mem x s \/ Span.mem x t ->
             Span.mem x (Span.Encompass s t)) /\
  (Span.min s < Span.max s -> Span.min t < Span.max t ->
   forall u,
     (forall x, Span.mem x s \/ Span.mem x t -> Span.mem x u) ->
     forall x, Span.mem x (Span.Encompass s t) -> Span.mem x u).
Proof.
  unfold Span.Encompass, Span.mem. cbn [Span.min Span.max].
  rewrite !imin_spec, !imax_spec. split; [| split].
  - rewrite Z.min_comm, Z.max_comm. reflexivity.
  - intros x Hx. lia.
  - intros Hs Ht u Hu x Hx.
    pose proof (Hu (Span.min s) ltac:(lia)).
    pose proof (Hu (Span.min t) ltac:(lia)).
    pose proof (Hu (Span.max s - 1) ltac:(lia)).
    pose proof (Hu (Span.max t - 1) ltac:(lia)).
    lia.
Qed.

Lemma Encompass_spec_witness :
  Span.min (Span.mk 20 40) < Span.max (Span.mk 20 40) /\
  Span.min (Span.mk 60 100) < Span.max (Span.mk 60 100) /\
  Span.mem 50 (Span.mk 10 120).
Proof.
  assert (Hs : Span.min (Span.mk 20 40) < Span.max (Span.mk 20 40))
    by (cbn; lia).
  assert (Ht : Span.min (Span.mk 60 100) < Span.max (Span.mk 60 100))
    by (cbn; lia).
  split; [exact Hs | split; [exact Ht |]].
  apply (proj2 (proj2 (Encompass_spec (Span.mk 20 40) (Span.mk 60 100)))
           Hs Ht (Span.mk 10 120)).
  - intros x. unfold Span.mem. cbn. lia.
  - unfold Span.mem. cbn. lia.
Defined.
